(** * A five-stage pipeline simulator with data-hazard stalls and branch
      misprediction flushes (src/code.py), embedded in Rocq.

    Python objects are mutable and shared by reference: an [Instruction] lives
    in an object store and the backlog and the stage registers hold addresses
    into it.  A method that can raise is a computation in a small state and
    exception monad over the engine state. *)

From stdpp Require Import base decidable option list strings functions sorting.

Open Scope string_scope.
Open Scope nat_scope.
Open Scope list_scope.

(** ** Instruction (src/code.py, class Instruction) *)

(** A register identifier as the code receives it: [None] or a [str]. *)
Inductive reg : Type :=
  | RNone
  | RStr (s : string).

#[global] Instance reg_eq_dec : EqDecision reg.
Proof. solve_decision. Defined.

(** Python truthiness of a register identifier ([if r] in the hazard loop):
    [None] and the empty string are falsy. *)
Definition truthy (r : reg) : bool :=
  match r with
  | RNone => false
  | RStr s => negb (String.eqb s "")
  end.

Record Instruction : Type := mkInstruction {
  name : string;
  reads : list reg;
  writes : list reg;
  is_branch : bool;
  predicted_taken : option bool;
  actual_taken : option bool
}.

(** [x or []] on an optional list argument. *)
Definition or_nil {A} (x : option (list A)) : list A :=
  match x with
  | Some (y :: l) => y :: l
  | _ => []
  end.

(** [Instruction.__init__] *)
Definition Instruction_init (name : string) (reads writes : option (list reg))
    (is_branch : bool) : Instruction :=
  {| name := name;
     reads := or_nil reads;
     writes := or_nil writes;
     is_branch := is_branch;
     predicted_taken := None;
     actual_taken := None |}.

Definition set_predicted_taken (b : bool) (i : Instruction) : Instruction :=
  {| name := name i; reads := reads i; writes := writes i;
     is_branch := is_branch i;
     predicted_taken := Some b;
     actual_taken := actual_taken i |}.

Definition set_actual_taken (b : bool) (i : Instruction) : Instruction :=
  {| name := name i; reads := reads i; writes := writes i;
     is_branch := is_branch i;
     predicted_taken := predicted_taken i;
     actual_taken := Some b |}.

(** ** InstructionFactory *)
Module InstructionFactory.

Definition create_load (name : string) (target_reg : reg)
    (value_source_reg : reg) : Instruction :=
  Instruction_init name
    (Some (if truthy value_source_reg then [value_source_reg] else []))
    (Some [target_reg]) false.

Definition create_alu (name : string) (reads writes : option (list reg))
    : Instruction :=
  Instruction_init name reads writes false.

Definition create_branch (name : string) (reads writes : option (list reg))
    : Instruction :=
  Instruction_init name (Some (or_nil reads)) (Some (or_nil writes)) true.

End InstructionFactory.

(** ** The per-cycle event record: a Python dict keyed by tuples *)

Inductive atom : Type :=
  | AInt (n : nat)
  | AStr (s : string).

#[global] Instance atom_eq_dec : EqDecision atom.
Proof. solve_decision. Defined.

(** A key is a tuple: [(idx, 1)], [("stall", cycle)], [("branch", idx)],
    [(s_idx,)]. *)
Abbreviation key := (list atom).
Abbreviation events := (list (key * string)).

(** [d[k] = v]: overwrite in place when the key is present, else append
    (dicts keep insertion order). *)
Fixpoint dict_set (k : key) (v : string) (d : events) : events :=
  match d with
  | [] => [(k, v)]
  | (k', v') :: d' =>
      if decide (k' = k) then (k', v) :: d' else (k', v') :: dict_set k v d'
  end.

Fixpoint dict_get (k : key) (d : events) : option string :=
  match d with
  | [] => None
  | (k', v') :: d' => if decide (k' = k) then Some v' else dict_get k d'
  end.

Definition stall_key (cycle : nat) : key := [AStr "stall"; AInt cycle].
Definition branch_key (idx : nat) : key := [AStr "branch"; AInt idx].
Definition pred_key (idx : nat) : key := [AInt idx; AInt 1].
Definition stage_key (s_idx : nat) : key := [AInt s_idx].

(** ** The branch predictor interface: [predict] and [actual_outcome]

    A predictor is an object with its own state (its mode, the random
    generator it draws from); each operation returns its answer and the
    predictor's next state. *)
Class BranchPredictor (P : Type) : Type := {
  predict : P → Instruction → bool * P;
  actual_outcome : P → Instruction → bool * P
}.

(** [SimpleBranchPredictor].  The draws of Python's [random] module are an
    oracle: [tape] lists the outcomes of the successive draws
    ([random.choice([True, False])], and [random.random() < 0.4]) and [pos]
    counts the draws made. *)
Record SimpleBranchPredictor : Type := mkSimple {
  mode : string;
  tape : nat → bool;
  pos : nat
}.

Definition draw (p : SimpleBranchPredictor) : bool * SimpleBranchPredictor :=
  (tape p (pos p), {| mode := mode p; tape := tape p; pos := S (pos p) |}).

#[global] Instance Simple_predictor : BranchPredictor SimpleBranchPredictor := {
  predict p instr :=
    if String.eqb (mode p) "static_taken" then (true, p)
    else if String.eqb (mode p) "static_not_taken" then (false, p)
    else draw p;
  actual_outcome p instr := draw p
}.

(** ** Pipeline *)

Abbreviation addr := nat.

(** A stage register holds [None] or the tuple [(instr_index, instr)]. *)
Abbreviation slot := (option (nat * addr)).

Record Pipeline (P : Type) : Type := mkPipeline {
  stages : list string;
  instr_queue : list addr;
  pipeline_regs : list slot;
  cycle : nat;
  stalls : nat;
  flushed : nat;
  branch_predictor : P;
  timeline : list events;
  (** the object store holding the [Instruction] objects *)
  objs : addr → Instruction
}.

Arguments mkPipeline {P}.
Arguments stages {P}.
Arguments instr_queue {P}.
Arguments pipeline_regs {P}.
Arguments cycle {P}.
Arguments stalls {P}.
Arguments flushed {P}.
Arguments branch_predictor {P}.
Arguments timeline {P}.
Arguments objs {P}.

Inductive exn : Type := IndexError.

Inductive result (A : Type) : Type :=
  | Val (a : A)
  | Raise (e : exn).

Arguments Val {A}.
Arguments Raise {A}.

(** [detect_data_hazard]: the loop over [instr.reads] with its early
    return. *)
Fixpoint hazard_loop (rs ws : list reg) : bool :=
  match rs with
  | [] => false
  | r :: rs' =>
      if truthy r && bool_decide (r ∈ ws) then true else hazard_loop rs' ws
  end.

Definition detect_data_hazard (instr : Instruction)
    (earlier_instr : option Instruction) : bool :=
  match earlier_instr with
  | None => false
  | Some e => hazard_loop (reads instr) (writes e)
  end.

(** [instr_obj.predicted_taken != instr_obj.actual_taken], the left side
    possibly [None]. *)
Definition differs (p : option bool) (a : bool) : bool :=
  match p with
  | Some b => negb (Bool.eqb b a)
  | None => true
  end.

Section Engine.

Context {P : Type} `{BranchPredictor P}.

Abbreviation Pipe := (Pipeline P).

(** [Pipeline.__init__]: no observers are modelled, [notify] calls into
    the view only. *)
Definition init (stages : list string) (store : addr → Instruction)
    (instructions : list addr) (branch_predictor : P) : Pipe :=
  {| stages := stages;
     instr_queue := instructions;
     pipeline_regs := replicate (length stages) None;
     cycle := 0;
     stalls := 0;
     flushed := 0;
     branch_predictor := branch_predictor;
     timeline := [];
     objs := store |}.

(** *** The monad of methods: engine state and exceptions *)

Definition M (A : Type) : Type := Pipe → result A * Pipe.

Definition ret {A} (a : A) : M A := λ s, (Val a, s).

Definition bind {A B} (m : M A) (k : A → M B) : M B :=
  λ s, match m s with
       | (Val a, s') => k a s'
       | (Raise e, s') => (Raise e, s')
       end.

Definition gets {A} (f : Pipe → A) : M A := λ s, (Val (f s), s).
Definition modify (f : Pipe → Pipe) : M unit := λ s, (Val tt, f s).

Notation "x <- m ;; k" := (bind m (λ x, k))
  (at level 100, m at next level, right associativity).
Notation "m ;;; k" := (bind m (λ _, k))
  (at level 100, right associativity).

(** Field assignments. *)
Definition with_cycle (v : nat) (s : Pipe) : Pipe :=
  mkPipeline (stages s) (instr_queue s) (pipeline_regs s) v (stalls s)
    (flushed s) (branch_predictor s) (timeline s) (objs s).
Definition with_stalls (v : nat) (s : Pipe) : Pipe :=
  mkPipeline (stages s) (instr_queue s) (pipeline_regs s) (cycle s) v
    (flushed s) (branch_predictor s) (timeline s) (objs s).
Definition with_flushed (v : nat) (s : Pipe) : Pipe :=
  mkPipeline (stages s) (instr_queue s) (pipeline_regs s) (cycle s)
    (stalls s) v (branch_predictor s) (timeline s) (objs s).
Definition with_queue (v : list addr) (s : Pipe) : Pipe :=
  mkPipeline (stages s) v (pipeline_regs s) (cycle s) (stalls s)
    (flushed s) (branch_predictor s) (timeline s) (objs s).
Definition with_regs (v : list slot) (s : Pipe) : Pipe :=
  mkPipeline (stages s) (instr_queue s) v (cycle s) (stalls s)
    (flushed s) (branch_predictor s) (timeline s) (objs s).
Definition with_predictor (v : P) (s : Pipe) : Pipe :=
  mkPipeline (stages s) (instr_queue s) (pipeline_regs s) (cycle s)
    (stalls s) (flushed s) v (timeline s) (objs s).
Definition with_timeline (v : list events) (s : Pipe) : Pipe :=
  mkPipeline (stages s) (instr_queue s) (pipeline_regs s) (cycle s)
    (stalls s) (flushed s) (branch_predictor s) v (objs s).
Definition with_objs (v : addr → Instruction) (s : Pipe) : Pipe :=
  mkPipeline (stages s) (instr_queue s) (pipeline_regs s) (cycle s)
    (stalls s) (flushed s) (branch_predictor s) (timeline s) v.

(** [self.pipeline_regs[i]] read: [IndexError] out of range. *)
Definition reg_load (i : nat) : M slot :=
  λ s, match pipeline_regs s !! i with
       | Some e => (Val e, s)
       | None => (Raise IndexError, s)
       end.

(** [self.pipeline_regs[i] = e]: [IndexError] out of range. *)
Definition reg_store (i : nat) (e : slot) : M unit :=
  λ s, if decide (i < length (pipeline_regs s))
       then (Val tt, with_regs (<[i:=e]> (pipeline_regs s)) s)
       else (Raise IndexError, s).

(** Reading an object through a reference. *)
Definition deref (a : addr) : M Instruction := gets (λ s, objs s a).

(** Calls into the predictor object. *)
Definition call_predict (a : addr) : M bool :=
  λ s, let '(b, p) := predict (branch_predictor s) (objs s a) in
       (Val b, with_predictor p s).
Definition call_actual_outcome (a : addr) : M bool :=
  λ s, let '(b, p) := actual_outcome (branch_predictor s) (objs s a) in
       (Val b, with_predictor p s).

(** [notify]: the observers are views, outside the engine. *)
Definition notify : M unit := ret tt.

(** *** [Pipeline.step], block by block *)

(** lines 63-65 *)
Definition hazard_check (id_instr ex_instr : slot) (stall_needed : bool)
    : M bool :=
  match id_instr, ex_instr with
  | Some (_, ia), Some (_, ea) =>
      i <- deref ia ;;
      e <- deref ea ;;
      ret (if detect_data_hazard i (Some e) then true else stall_needed)
  | _, _ => ret stall_needed
  end.

(** lines 66-68 *)
Definition predict_block (id_instr : slot) (cycle_events : events)
    : M events :=
  match id_instr with
  | Some (idx, ia) =>
      i <- deref ia ;;
      if is_branch i && bool_decide (predicted_taken i = None) then
        b <- call_predict ia ;;
        modify (λ s, with_objs (<[ia := set_predicted_taken b (objs s ia)]> (objs s)) s) ;;;
        i' <- deref ia ;;
        ret (dict_set (pred_key idx)
               ("PRED:" ++ (if predicted_taken i' is Some true then "T" else "N"))
               cycle_events)
      else ret cycle_events
  | None => ret cycle_events
  end.

(** lines 71-88 *)
Definition shift_block (stall_needed : bool) (cycle_events : events)
    : M events :=
  if stall_needed then
    modify (λ s, with_stalls (stalls s + 1) s) ;;;
    c <- gets cycle ;;
    let cycle_events := dict_set (stall_key c) "DATA_STALL" cycle_events in
    r3 <- reg_load 3 ;; reg_store 4 r3 ;;;
    r2 <- reg_load 2 ;; reg_store 3 r2 ;;;
    reg_store 2 None ;;;
    ret cycle_events
  else
    r3 <- reg_load 3 ;; reg_store 4 r3 ;;;
    r2 <- reg_load 2 ;; reg_store 3 r2 ;;;
    r1 <- reg_load 1 ;; reg_store 2 r1 ;;;
    r0 <- reg_load 0 ;; reg_store 1 r0 ;;;
    q <- gets instr_queue ;;
    match q with
    | instr :: q' =>
        modify (with_queue q') ;;;
        instr_index <- gets (λ s, length (timeline s)) ;;
        reg_store 0 (Some (instr_index, instr)) ;;;
        ret cycle_events
    | [] =>
        reg_store 0 None ;;;
        ret cycle_events
    end.

(** lines 96-99: squash the fetch and decode registers *)
Definition squash (i : nat) : M unit :=
  r <- reg_load i ;;
  if r is Some _ then reg_store i None else ret tt.

(** lines 89-101 *)
Definition resolve_block (cycle_events : events) : M events :=
  ex_entry <- reg_load 2 ;;
  match ex_entry with
  | Some (idx, instr_obj) =>
      i <- deref instr_obj ;;
      if is_branch i then
        b <- call_actual_outcome instr_obj ;;
        modify (λ s, with_objs (<[instr_obj := set_actual_taken b (objs s instr_obj)]> (objs s)) s) ;;;
        i' <- deref instr_obj ;;
        if differs (predicted_taken i') b then
          modify (λ s, with_flushed (flushed s + 1) s) ;;;
          let cycle_events := dict_set (branch_key idx) "MISPREDICT" cycle_events in
          squash 0 ;;;
          squash 1 ;;;
          ret cycle_events
        else
          ret (dict_set (branch_key idx) "PRED_CORRECT" cycle_events)
      else ret cycle_events
  | None => ret cycle_events
  end.

(** lines 103-110: [for s_idx in range(stages_count)] *)
Fixpoint snapshot (range : list nat) (cycle_events : events) : M events :=
  match range with
  | [] => ret cycle_events
  | s_idx :: range' =>
      entry <- reg_load s_idx ;;
      status <- match entry with
                | None => ret ""
                | Some (idx, ins) => i <- deref ins ;; ret (name i)
                end ;;
      snapshot range' (dict_set (stage_key s_idx) status cycle_events)
  end.

(** lines 57-88: up to and including the stage shift *)
Definition step_front : M (nat * events) :=
  modify (λ s, with_cycle (cycle s + 1) s) ;;;
  let cycle_events : events := [] in
  stages_count <- gets (λ s, length (stages s)) ;;
  let stall_needed := false in
  id_instr <- reg_load 1 ;;
  ex_instr <- reg_load 2 ;;
  stall_needed <- hazard_check id_instr ex_instr stall_needed ;;
  cycle_events <- predict_block id_instr cycle_events ;;
  cycle_events <- shift_block stall_needed cycle_events ;;
  ret (stages_count, cycle_events).

(** lines 89-113 *)
Definition step_back (stages_count : nat) (cycle_events : events) : M unit :=
  cycle_events <- resolve_block cycle_events ;;
  cycle_events <- snapshot (seq 0 stages_count) cycle_events ;;
  modify (λ s, with_timeline (timeline s ++ [cycle_events]) s) ;;;
  notify.

Definition step : M unit :=
  fr <- step_front ;;
  step_back fr.1 fr.2.

(** [Pipeline.is_done] *)
Definition is_done (s : Pipe) : bool :=
  if existsb (λ e : slot, if e is Some _ then true else false) (pipeline_regs s)
  then false
  else if instr_queue s is _ :: _ then false
  else true.

(** The driving loop: [n] calls of [step], an exception ends it. *)
Fixpoint run (n : nat) : M unit :=
  match n with
  | 0 => ret tt
  | S n' => step ;;; run n'
  end.

(** [PipelineView.run_all] (lines 216-221), without the drawing: [runloop]
    calls [step] and schedules itself again as long as the engine is not
    done.  [fuel] bounds the number of times the timer fires. *)
Fixpoint run_all (fuel : nat) : M unit :=
  match fuel with
  | 0 => ret tt
  | S fuel' =>
      done <- gets is_done ;;
      if negb done then step ;;; run_all fuel' else ret tt
  end.

End Engine.


(** ** Derived notions used in the statements *)

Section Notions.

Context {P : Type} `{BranchPredictor P}.

(** The occupant of a stage register, [None] out of range. *)
Definition slot_at (s : Pipeline P) (i : nat) : slot :=
  match pipeline_regs s !! i with
  | Some e => e
  | None => None
  end.

(** The value [stall_needed] takes in [step] (lines 60-65). *)
Definition stall_needed (s : Pipeline P) : bool :=
  match slot_at s 1, slot_at s 2 with
  | Some (_, ia), Some (_, ea) =>
      detect_data_hazard (objs s ia) (Some (objs s ea))
  | _, _ => false
  end.

(** What a call of [step] fetches (lines 83-86): nothing on the stall path or
    with an empty backlog, else the front of the backlog, tagged with the
    length of the timeline. *)
Definition fetched (s : Pipeline P) : slot :=
  if stall_needed s then None
  else match instr_queue s with
       | instr :: _ => Some (length (timeline s), instr)
       | [] => None
       end.

(** What the non-stall path writes to register 0. *)
Definition refill (s : Pipeline P) : slot :=
  match instr_queue s with
  | instr :: _ => Some (length (timeline s), instr)
  | [] => None
  end.

(** The branch resolution of lines 90-93 finds a misprediction for the
    occupant [e] of register 2. *)
Definition mispredicts (s : Pipeline P) (e : slot) : bool :=
  match e with
  | Some (_, a) =>
      is_branch (objs s a)
      && differs (predicted_taken (objs s a))
           (actual_outcome (branch_predictor s) (objs s a)).1
  | None => false
  end.

(** The status string the snapshot loop records for a register. *)
Definition status_of (s : Pipeline P) (e : slot) : string :=
  match e with
  | None => ""
  | Some (_, ins) => name (objs s ins)
  end.

Fixpoint snapshot_events (s : Pipeline P) (range : list nat) (ev : events)
    : events :=
  match range with
  | [] => ev
  | i :: range' =>
      snapshot_events s range'
        (dict_set (stage_key i) (status_of s (slot_at s i)) ev)
  end.

(** The engine was built by [__init__] and driven by calls of [step] that
    returned. *)
Inductive reachable : Pipeline P → Prop :=
  | reach_init stages store instructions bp :
      reachable (init stages store instructions bp)
  | reach_step s s' :
      reachable s → step s = (Val tt, s') → reachable s'.

(** The indices assigned by the fetches of [n] successive calls. *)
Fixpoint fetch_log (n : nat) (s : Pipeline P) : list nat :=
  match n with
  | 0 => []
  | S n' =>
      match step s with
      | (Val _, s') =>
          (if fetched s is Some (i, _) then [i] else []) ++ fetch_log n' s'
      | (Raise _, _) => []
      end
  end.

(** One register per stage; registers past the fifth are never written;
    with fewer than five registers nothing is ever fetched; one event record
    per cycle. *)
Record inv (s : Pipeline P) : Prop := mkInv {
  inv_len : length (pipeline_regs s) = length (stages s);
  inv_tail : ∀ j, 5 ≤ j → slot_at s j = None;
  inv_short : length (pipeline_regs s) < 5 → ∀ j, slot_at s j = None;
  inv_cycle : length (timeline s) = cycle s
}.

(** Two engines that agree on everything but the state of their
    predictors. *)
Definition sim (s1 s2 : Pipeline P) : Prop :=
  stages s1 = stages s2
  ∧ instr_queue s1 = instr_queue s2
  ∧ pipeline_regs s1 = pipeline_regs s2
  ∧ cycle s1 = cycle s2
  ∧ stalls s1 = stalls s2
  ∧ flushed s1 = flushed s2
  ∧ timeline s1 = timeline s2
  ∧ objs s1 = objs s2.

(** A method behaves alike on two such engines. *)
Definition agree {A} (m : M A) : Prop :=
  ∀ s1 s2, sim s1 s2 → (m s1).1 = (m s2).1 ∧ sim (m s1).2 (m s2).2.

End Notions.

Arguments agree P {A} m.

(** ** Measures and bookkeeping used in the proofs *)

(** The fields of an instruction that [step] never writes. *)
Definition same_static (i j : Instruction) : Prop :=
  name i = name j ∧ reads i = reads j ∧ writes i = writes j
  ∧ is_branch i = is_branch j.

Definition occupied (e : slot) : bool := if e is Some _ then true else false.

(** How many normal cycles the registers need to drain. *)
Definition depth (regs : list slot) : nat :=
  match regs with
  | r0 :: r1 :: r2 :: r3 :: r4 :: _ =>
      if occupied r0 then 5
      else if occupied r1 then 4
      else if occupied r2 then 3
      else if occupied r3 then 2
      else if occupied r4 then 1
      else 0
  | _ => 0
  end.

(** How many normal cycles are left: the backlog, then five more for its
    last instruction; the registers alone once the backlog is empty. *)
Definition remaining {P} (s : Pipeline P) : nat :=
  match instr_queue s with
  | [] => depth (pipeline_regs s)
  | q => length q + 5
  end.

(** The record the snapshot loop builds when every register is empty. *)
Definition empty_snapshot (a n : nat) : events :=
  map (λ j, (stage_key j, "")) (seq a n).

(** The addresses of the objects that have not reached the execute stage
    yet: the backlog and the registers 0 and 1. *)
Definition slot_addr (e : slot) : list addr :=
  match e with
  | Some (_, a) => [a]
  | None => []
  end.

Definition front {P} (s : Pipeline P) : list addr :=
  instr_queue s ++ slot_addr (slot_at s 0) ++ slot_addr (slot_at s 1).

(** No object is held twice, and none has been resolved before it
    executes. *)
Definition unshared {P} (s : Pipeline P) : Prop :=
  NoDup (front s) ∧ ∀ a, a ∈ front s → actual_taken (objs s a) = None.

(** The program-order indices of the occupants, from register 0 on. *)
Definition slot_idx (e : slot) : list nat :=
  match e with
  | Some (i, _) => [i]
  | None => []
  end.

Definition in_flight {P} (s : Pipeline P) : list nat :=
  flat_map slot_idx (pipeline_regs s).

(** Every instruction the engine holds: the backlog, then the occupants of
    the registers. *)
Definition held {P} (s : Pipeline P) : list addr :=
  instr_queue s ++ flat_map slot_addr (pipeline_regs s).

(** Program order inside the registers: the indices decrease from
    register 0 on, and all lie below the length of the timeline. *)
Definition in_order {P} (s : Pipeline P) : Prop :=
  StronglySorted (λ x y, y < x) (in_flight s)
  ∧ Forall (λ i, i < length (timeline s)) (in_flight s).

(** The instructions fetched by [n] successive calls of [step], in the
    order of the fetches. *)
Fixpoint fetch_addrs {P} `{BranchPredictor P} (n : nat) (s : Pipeline P)
    : list addr :=
  match n with
  | 0 => []
  | S n' =>
      match step s with
      | (Val _, s') =>
          (if fetched s is Some (_, a) then [a] else [])
            ++ fetch_addrs n' s'
      | (Raise _, _) => []
      end
  end.

(** The text [PipelineView.update_view] puts in the box of stage [j] for one
    event record (lines 196-199): [cycle_events.get((j,), "")]. *)
Definition cell_text (cycle_events : events) (j : nat) : string :=
  default "" (dict_get (stage_key j) cycle_events).

(** The rows of boxes [update_view] draws: one row per record of the
    timeline, one box per stage. *)
Definition grid {P} (s : Pipeline P) : list (list string) :=
  map (λ cycle_events, map (cell_text cycle_events)
                         (seq 0 (length (stages s))))
    (timeline s).

(** ** The sample program of the repository ([sample_program], [main]) *)

Definition sample_program : list Instruction :=
  [ InstructionFactory.create_load "I1: LOAD R1" (RStr "R1") RNone;
    InstructionFactory.create_alu "I2: ADD R2,R1"
      (Some [RStr "R1"]) (Some [RStr "R2"]);
    InstructionFactory.create_branch "I3: BEQ R2,0 -> LABEL"
      (Some [RStr "R2"]) None;
    InstructionFactory.create_alu "I4: ADD R3,R5"
      (Some [RStr "R5"]) (Some [RStr "R3"]);
    InstructionFactory.create_alu "I5: SUB R6,R7"
      (Some [RStr "R7"]) (Some [RStr "R6"]) ].

(** The object store in which the objects of a list sit at the addresses
    0, 1, 2, ... *)
Definition store_of (l : list Instruction) : addr → Instruction :=
  λ a, nth a l (Instruction_init "" None None false).

Definition main_stages : list string := ["IF"; "ID"; "EX"; "MEM"; "WB"].

(** [SimpleBranchPredictor(mode="static_not_taken")], with the outcomes of
    the random draws given. *)
Definition static_not_taken (tape : nat → bool) : SimpleBranchPredictor :=
  {| mode := "static_not_taken"; tape := tape; pos := 0 |}.

(** The engine [main] builds; every draw of [actual_outcome] comes out
    [draws]. *)
Definition main_pipeline (draws : bool) : Pipeline SimpleBranchPredictor :=
  init main_stages (store_of sample_program) [0; 1; 2; 3; 4]
    (static_not_taken (λ _, draws)).

(** A deterministic predictor, not in the repository, of the kind section 8
    of the specification uses for its determinism test: it predicts
    not-taken, resolves every branch as taken, and counts the calls it
    gets. *)
Record CountingPredictor : Type := mkCounting { calls : nat }.

#[global] Instance Counting_predictor : BranchPredictor CountingPredictor := {
  predict p instr := (false, mkCounting (S (calls p)));
  actual_outcome p instr := (is_branch instr, mkCounting (S (calls p)))
}.

(** A program that holds the same branch object twice, as the list
    [[b, b]] does (or [[b] * 2]). *)
Definition shared_branch : Instruction :=
  InstructionFactory.create_branch "B: BEQ R1,0" (Some [RStr "R1"]) None.

(** The engine of [main] on that program; the first draw of
    [actual_outcome] comes out [False] and the second [True]. *)
Definition shared_pipeline : Pipeline SimpleBranchPredictor :=
  init main_stages (store_of [shared_branch]) [0; 0]
    (static_not_taken (λ n, Nat.eqb n 1)).

(** ** Event records *)

Lemma dict_get_set k k' v d :
  dict_get k (dict_set k' v d)
  = if decide (k' = k) then Some v else dict_get k d.
Proof.
  induction d as [|[k0 v0] d IH]; simpl; [done|].
  repeat (case_decide; simpl; simplify_eq); done.
Qed.

Lemma dict_get_set_ne k k' v d :
  k' ≠ k → dict_get k (dict_set k' v d) = dict_get k d.
Proof. intros. rewrite dict_get_set. by case_decide. Qed.

Lemma dict_get_set_eq k v d : dict_get k (dict_set k v d) = Some v.
Proof. rewrite dict_get_set. by case_decide. Qed.

Section Blocks.

Context {P : Type} `{BranchPredictor P}.

Implicit Types s : Pipeline P.

Lemma snapshot_events_other s range : ∀ ev k,
  (∀ j, k ≠ stage_key j) →
  dict_get k (snapshot_events s range ev) = dict_get k ev.
Proof.
  induction range as [|i range IH]; intros ev k Hk; simpl; [done|].
  rewrite IH by done. by apply dict_get_set_ne.
Qed.

(** The snapshot loop reads the registers and changes nothing, as long as
    the range stays inside the register list. *)
Lemma snapshot_val range : ∀ ev s,
  Forall (λ i, i < length (pipeline_regs s)) range →
  snapshot range ev s = (Val (snapshot_events s range ev), s).
Proof.
  induction range as [|i range IH]; intros ev s Hr; [done|].
  inversion Hr as [|? ? Hi Hr']; subst.
  destruct (lookup_lt_is_Some_2 _ _ Hi) as [e He].
  cbn [snapshot snapshot_events]. unfold slot_at, bind at 1, reg_load at 1.
  rewrite He.
  destruct e as [[idx ins]|]; unfold bind, deref, gets, ret; simpl;
    by rewrite IH.
Qed.

Lemma snapshot_seq n ev s :
  n ≤ length (pipeline_regs s) →
  snapshot (seq 0 n) ev s = (Val (snapshot_events s (seq 0 n) ev), s).
Proof.
  intros Hn. apply snapshot_val, Forall_forall. intros i Hi.
  apply elem_of_seq in Hi. lia.
Qed.

End Blocks.

(** ** What one call of [step] does

    The two halves of [step] are run symbolically on a register list with
    at least five registers. *)

Section Exec.
Context {P : Type} `{BranchPredictor P}.
Implicit Types s : Pipeline P.

Ltac unfold_m :=
  unfold hazard_check, predict_block, shift_block, resolve_block, squash,
    bind, ret, gets, modify, reg_load, reg_store, deref, call_predict,
    call_actual_outcome, notify, with_cycle, with_stalls, with_flushed, with_queue,
    with_regs, with_predictor, with_timeline, with_objs.

Ltac fin :=
  repeat split; intros; repeat case_decide; simplify_eq/=; done.
Ltac fin_l := repeat (split; [done|]); left; fin.
Ltac fin_r := repeat (split; [done|]); right; fin.

Ltac fin2 :=
  repeat split; intros; rewrite ?dict_get_set in *;
  repeat case_decide; simplify_eq/=; eauto.

Lemma step_front_spec s r0 r1 r2 r3 r4 rest :
  pipeline_regs s = r0 :: r1 :: r2 :: r3 :: r4 :: rest →
  ∃ ev s1,
    step_front s = (Val (length (stages s), ev), s1)
    ∧ stages s1 = stages s ∧ cycle s1 = cycle s + 1
    ∧ timeline s1 = timeline s ∧ flushed s1 = flushed s
    ∧ (∀ i, dict_get (branch_key i) ev = None)
    ∧ ((stall_needed s = true ∧ stalls s1 = stalls s + 1
        ∧ instr_queue s1 = instr_queue s
        ∧ pipeline_regs s1 = r0 :: r1 :: None :: r2 :: r3 :: rest
        ∧ dict_get (stall_key (cycle s + 1)) ev = Some "DATA_STALL")
       ∨ (stall_needed s = false ∧ stalls s1 = stalls s
          ∧ instr_queue s1 = tail (instr_queue s)
          ∧ pipeline_regs s1 = refill s :: r0 :: r1 :: r2 :: r3 :: rest
          ∧ ∀ c, dict_get (stall_key c) ev = None)).
Proof.
  destruct s as [st q regs c stl fl bp tl ob]; simpl. intros ->.
  unfold step_front, stall_needed, refill, slot_at; unfold_m; simpl.
  repeat (case_match; simplify_eq/=).
  all: do 2 eexists; (split; [reflexivity|]); simpl.
  all: first [ solve [fin_l] | solve [fin_r] ].
Qed.

Lemma resolve_block_spec s ev x0 x1 x2 rest :
  pipeline_regs s = x0 :: x1 :: x2 :: rest →
  ∃ ev' s',
    resolve_block ev s = (Val ev', s')
    ∧ stages s' = stages s ∧ cycle s' = cycle s ∧ stalls s' = stalls s
    ∧ instr_queue s' = instr_queue s ∧ timeline s' = timeline s
    ∧ (∀ k, (∀ i, k ≠ branch_key i) → dict_get k ev' = dict_get k ev)
    ∧ (x2 = None → ev' = ev)
    ∧ ((mispredicts s x2 = true
        ∧ flushed s' = flushed s + 1
        ∧ pipeline_regs s' = None :: None :: x2 :: rest
        ∧ ∃ idx a, x2 = Some (idx, a)
            ∧ dict_get (branch_key idx) ev' = Some "MISPREDICT")
       ∨ (mispredicts s x2 = false
          ∧ flushed s' = flushed s
          ∧ pipeline_regs s' = pipeline_regs s
          ∧ ∀ i, dict_get (branch_key i) ev' = Some "MISPREDICT" →
                 dict_get (branch_key i) ev = Some "MISPREDICT")).
Proof.
  destruct s as [st q regs c stl fl bp tl ob]; simpl. intros ->.
  unfold mispredicts; unfold_m; simpl.
  repeat (case_match; simplify_eq/=).
  all: do 2 eexists; (split; [reflexivity|]); simpl.
  all: rewrite ?fn_lookup_insert in *; simpl in *.
  all: repeat (split; [done || (intros; rewrite ?dict_get_set;
                                repeat case_decide; naive_solver)|]).
  all: first
    [ left; repeat (split; [done|]); do 2 eexists;
      split; [reflexivity|]; apply dict_get_set_eq
    | right; solve [fin2] ].
Qed.

Lemma step_back_spec s n ev x0 x1 x2 rest :
  pipeline_regs s = x0 :: x1 :: x2 :: rest →
  n ≤ length (pipeline_regs s) →
  ∃ rec s',
    step_back n ev s = (Val tt, s')
    ∧ stages s' = stages s ∧ cycle s' = cycle s ∧ stalls s' = stalls s
    ∧ instr_queue s' = instr_queue s ∧ timeline s' = timeline s ++ [rec]
    ∧ (∀ k, (∀ i, k ≠ branch_key i) → (∀ j, k ≠ stage_key j) →
            dict_get k rec = dict_get k ev)
    ∧ (x2 = None → ∀ i, dict_get (branch_key i) rec = dict_get (branch_key i) ev)
    ∧ ((mispredicts s x2 = true
        ∧ flushed s' = flushed s + 1
        ∧ pipeline_regs s' = None :: None :: x2 :: rest
        ∧ ∃ idx a, x2 = Some (idx, a)
            ∧ dict_get (branch_key idx) rec = Some "MISPREDICT")
       ∨ (mispredicts s x2 = false
          ∧ flushed s' = flushed s
          ∧ pipeline_regs s' = pipeline_regs s
          ∧ ∀ i, dict_get (branch_key i) rec = Some "MISPREDICT" →
                 dict_get (branch_key i) ev = Some "MISPREDICT")).
Proof.
  intros Hr Hn.
  destruct (resolve_block_spec s ev _ _ _ _ Hr)
    as (ev' & s1 & Hres & Hst & Hc & Hstl & Hq & Htl & Hev & Hnone & Hcase).
  assert (n ≤ length (pipeline_regs s1)) as Hn1.
  { destruct Hcase as [(_ & _ & -> & _)|(_ & _ & -> & _)]; [|done].
    rewrite Hr in Hn. simpl in *. lia. }
  unfold step_back, bind. rewrite Hres, (snapshot_seq _ _ _ Hn1).
  unfold modify, notify, ret, with_timeline; simpl.
  do 2 eexists; split; [reflexivity|]; simpl.
  assert (∀ k, (∀ j, k ≠ stage_key j) →
    dict_get k (snapshot_events s1 (seq 0 n) ev') = dict_get k ev') as Hsn
    by (intros; by apply snapshot_events_other).
  assert (∀ i j, branch_key i ≠ stage_key j) as Hbk by done.
  rewrite Htl. repeat (split; [done|]).
  split. { intros k Hk1 Hk2. rewrite Hsn by done. by apply Hev. }
  split. { intros -> i. rewrite Hsn by done. by rewrite Hnone. }
  destruct Hcase as [(Hm & Hfl & Hregs & idx & a & -> & Hmis)
                    |(Hm & Hfl & Hregs & Hno)].
  - left. repeat (split; [done|]). exists idx, a. split; [done|].
    by rewrite Hsn.
  - right. repeat (split; [done|]). intros i. rewrite Hsn by done. apply Hno.
Qed.
Lemma step_unfold s :
  step s = match step_front s with
           | (Val fr, s1) => step_back fr.1 fr.2 s1
           | (Raise e, s1) => (Raise e, s1)
           end.
Proof. done. Qed.

(** One call of [step] on an engine with at least five registers: it
    returns, and takes the stall path or the normal path, the latter with or
    without a squash. *)
Lemma step_spec s r0 r1 r2 r3 r4 rest :
  pipeline_regs s = r0 :: r1 :: r2 :: r3 :: r4 :: rest →
  length (stages s) ≤ length (pipeline_regs s) →
  ∃ rec s',
    step s = (Val tt, s')
    ∧ stages s' = stages s ∧ cycle s' = cycle s + 1
    ∧ timeline s' = timeline s ++ [rec]
    ∧ ((stall_needed s = true
        ∧ stalls s' = stalls s + 1 ∧ flushed s' = flushed s
        ∧ instr_queue s' = instr_queue s
        ∧ pipeline_regs s' = r0 :: r1 :: None :: r2 :: r3 :: rest
        ∧ dict_get (stall_key (cycle s + 1)) rec = Some "DATA_STALL"
        ∧ ∀ i, dict_get (branch_key i) rec = None)
       ∨ (stall_needed s = false
          ∧ stalls s' = stalls s
          ∧ instr_queue s' = tail (instr_queue s)
          ∧ (∀ c, dict_get (stall_key c) rec = None)
          ∧ ((flushed s' = flushed s + 1
              ∧ pipeline_regs s' = None :: None :: r1 :: r2 :: r3 :: rest
              ∧ ∃ idx a, r1 = Some (idx, a)
                  ∧ dict_get (branch_key idx) rec = Some "MISPREDICT")
             ∨ (flushed s' = flushed s
                ∧ pipeline_regs s' = refill s :: r0 :: r1 :: r2 :: r3 :: rest
                ∧ ∀ i, dict_get (branch_key i) rec ≠ Some "MISPREDICT")))).
Proof.
  intros Hr Hn.
  destruct (step_front_spec s _ _ _ _ _ _ Hr)
    as (ev & s1 & Hfr & Hst & Hc & Htl & Hfl & Hnb & Hcase).
  rewrite step_unfold, Hfr. cbn [fst snd].
  assert (length (pipeline_regs s1) = length (pipeline_regs s)) as Hlen.
  { destruct Hcase as [(_ & _ & _ & -> & _)|(_ & _ & _ & -> & _)];
      by rewrite Hr. }
  assert (∀ i c, stall_key c ≠ branch_key i) as Hsb by done.
  assert (∀ j c, stall_key c ≠ stage_key j) as Hss by done.
  destruct Hcase as [(Hsn & Hstl & Hq & Hregs & Hev)
                    |(Hsn & Hstl & Hq & Hregs & Hev)].
  - destruct (step_back_spec s1 (length (stages s)) ev _ _ _ _ Hregs)
      as (rec & s' & Hbk & Hst' & Hc' & Hstl' & Hq' & Htl' & Hoth & Hnone
          & Hcase); [lia|].
    exists rec, s'. split; [done|].
    rewrite Hst', Hc', Htl', Hst, Hc, Htl. repeat (split; [done|]).
    left. destruct Hcase as [(Hm & _)|(_ & Hfl' & Hregs' & _)]; [done|].
    rewrite Hstl', Hfl', Hq', Hregs', Hstl, Hfl, Hq, Hregs.
    repeat (split; [done|]). split.
    + rewrite Hoth; done.
    + intros i. by rewrite Hnone.
  - destruct (step_back_spec s1 (length (stages s)) ev _ _ _ _ Hregs)
      as (rec & s' & Hbk & Hst' & Hc' & Hstl' & Hq' & Htl' & Hoth & Hnone
          & Hcase); [lia|].
    exists rec, s'. split; [done|].
    rewrite Hst', Hc', Htl', Hst, Hc, Htl. repeat (split; [done|]).
    right. rewrite Hstl', Hq', Hstl, Hq. repeat (split; [done|]). split.
    { intros c. rewrite Hoth; done. }
    destruct Hcase as [(_ & Hfl' & Hregs' & Hmis)|(_ & Hfl' & Hregs' & Hno)].
    + left. by rewrite Hfl', Hregs', Hfl.
    + right. rewrite Hfl', Hregs', Hregs, Hfl. repeat (split; [done|]).
      intros i Hi. apply Hno in Hi. by rewrite Hnb in Hi.
Qed.

Lemma hazard_check_val id_instr ex_instr b s :
  ∃ b', hazard_check id_instr ex_instr b s = (Val b', s).
Proof.
  destruct id_instr as [[? ?]|], ex_instr as [[? ?]|]; unfold_m; simpl; eauto.
Qed.

Lemma predict_block_frame id_instr ev s :
  ∃ ev' s',
    predict_block id_instr ev s = (Val ev', s')
    ∧ pipeline_regs s' = pipeline_regs s
    ∧ instr_queue s' = instr_queue s
    ∧ timeline s' = timeline s
    ∧ cycle s' = cycle s.
Proof.
  destruct s as [st q regs c stl fl bp tl ob].
  destruct id_instr as [[idx ia]|]; unfold_m; simpl; [|by eauto 10].
  repeat (case_match; simplify_eq/=); eauto 10.
Qed.

Lemma shift_block_short b ev s :
  length (pipeline_regs s) < 5 →
  ∃ s', shift_block b ev s = (Raise IndexError, s')
        ∧ pipeline_regs s' = pipeline_regs s
        ∧ instr_queue s' = instr_queue s
        ∧ timeline s' = timeline s
        ∧ cycle s' = cycle s.
Proof.
  destruct s as [st q regs c stl fl bp tl ob]; simpl. intros Hlen.
  destruct regs as [|r0 [|r1 [|r2 [|r3 [|r4 rest]]]]]; simpl in Hlen;
    try lia.
  all: destruct b; unfold_m; simpl; eauto 10.
Qed.

(** With fewer than five registers the stage shift runs off the register
    list: [IndexError] is raised before any register is written. *)
Lemma step_front_short s :
  length (pipeline_regs s) < 5 →
  ∃ s', step_front s = (Raise IndexError, s')
        ∧ pipeline_regs s' = pipeline_regs s
        ∧ instr_queue s' = instr_queue s
        ∧ timeline s' = timeline s
        ∧ cycle s' = cycle s + 1.
Proof.
  intros Hlen. unfold step_front.
  unfold bind at 1, modify at 1. unfold bind at 1, gets at 1.
  set (s0 := with_cycle (cycle s + 1) s).
  assert (pipeline_regs s0 = pipeline_regs s ∧ instr_queue s0 = instr_queue s
          ∧ timeline s0 = timeline s ∧ cycle s0 = cycle s + 1)
    as (Hr0 & Hq0 & Ht0 & Hc0) by done.
  clearbody s0.
  unfold bind at 1, reg_load at 1.
  destruct (pipeline_regs s0 !! 1) as [id_instr|]; [|by eauto 10].
  unfold bind at 1, reg_load at 1.
  destruct (pipeline_regs s0 !! 2) as [ex_instr|]; [|by eauto 10].
  unfold bind at 1.
  destruct (hazard_check_val id_instr ex_instr false s0) as [b ->].
  unfold bind at 1.
  destruct (predict_block_frame id_instr [] s0)
    as (ev & s1 & -> & Hr1 & Hq1 & Ht1 & Hc1).
  unfold bind at 1.
  destruct (shift_block_short b ev s1) as (s2 & -> & Hr2 & Hq2 & Ht2 & Hc2);
    [congruence|].
  exists s2. split; [done|]. repeat split; congruence.
Qed.

Lemma step_short s :
  length (pipeline_regs s) < 5 →
  ∃ s', step s = (Raise IndexError, s')
        ∧ pipeline_regs s' = pipeline_regs s
        ∧ instr_queue s' = instr_queue s
        ∧ timeline s' = timeline s
        ∧ cycle s' = cycle s + 1.
Proof.
  intros Hlen. destruct (step_front_short s Hlen) as (s' & Hs' & Hrest).
  exists s'. by rewrite step_unfold, Hs'.
Qed.

End Exec.

(** ** Invariants of the reachable engine states *)

Section Invariants.

Context {P : Type} `{BranchPredictor P}.

Implicit Types s : Pipeline P.

Lemma slot_at_replicate n j (s : Pipeline P) :
  pipeline_regs s = replicate n None → slot_at s j = None.
Proof.
  intros Hs. unfold slot_at. rewrite Hs.
  destruct (_ !! j) as [e|] eqn:E; [|done].
  by apply lookup_replicate in E as [-> _].
Qed.

Lemma inv_init stages store instructions (bp : P) :
  inv (init stages store instructions bp).
Proof.
  split; simpl.
  - by rewrite length_replicate.
  - intros j _. by eapply slot_at_replicate.
  - intros _ j. by eapply slot_at_replicate.
  - done.
Qed.

Lemma regs_shape (l : list slot) :
  5 ≤ length l → ∃ r0 r1 r2 r3 r4 rest, l = r0 :: r1 :: r2 :: r3 :: r4 :: rest.
Proof.
  destruct l as [|r0 [|r1 [|r2 [|r3 [|r4 rest]]]]]; simpl; try lia.
  intros _. by exists r0, r1, r2, r3, r4, rest.
Qed.

Lemma step_val_long s s' :
  step s = (Val tt, s') → 5 ≤ length (pipeline_regs s).
Proof.
  intros Hs. destruct (decide (5 ≤ length (pipeline_regs s))); [done|].
  destruct (step_short s) as (s1 & Hs1 & _); [lia|]. congruence.
Qed.

Lemma inv_step s s' : inv s → step s = (Val tt, s') → inv s'.
Proof.
  intros [Hlen Htail Hshort Hcyc] Hs.
  pose proof (step_val_long _ _ Hs) as Hlong.
  destruct (regs_shape _ Hlong) as (r0 & r1 & r2 & r3 & r4 & rest & Hr).
  destruct (step_spec s _ _ _ _ _ _ Hr) as (rec & s1 & Hs1 & Hst & Hc & Htl & Hcase);
    [lia|].
  assert (s1 = s') as -> by congruence.
  assert (∀ j, 5 ≤ j → rest !! (j - 5) = None ∨ rest !! (j - 5) = Some None)
    as Hrest.
  { intros j Hj. specialize (Htail j Hj). unfold slot_at in Htail.
    rewrite Hr in Htail.
    replace j with (5 + (j - 5)) in Htail by lia. simpl in Htail.
    destruct (rest !! (j - 5)) as [e|]; [right; by subst|by left]. }
  assert (∃ x0 x1 x2 x3 x4, pipeline_regs s' = x0 :: x1 :: x2 :: x3 :: x4 :: rest)
    as (x0 & x1 & x2 & x3 & x4 & Hr').
  { destruct Hcase as [(_ & _ & _ & _ & -> & _)
                      |(_ & _ & _ & _ & [(_ & -> & _)|(_ & -> & _)])];
      eauto 10. }
  split.
  - rewrite Hr', Hst, <- Hlen, Hr. done.
  - intros j Hj. unfold slot_at. rewrite Hr'.
    replace j with (5 + (j - 5)) by lia. simpl.
    by destruct (Hrest j Hj) as [-> | ->].
  - rewrite Hr'. simpl. lia.
  - rewrite Htl, Hc, length_app. simpl. lia.
Qed.

Lemma reachable_inv s : reachable s → inv s.
Proof.
  induction 1 as [stages store instructions bp|s s' _ IH Hs].
  - apply inv_init.
  - by eapply inv_step.
Qed.

(** The hazard loop finds a hazard exactly when a truthy register
    identifier read by the later instruction is written by the earlier one. *)
Lemma hazard_loop_true rs ws :
  hazard_loop rs ws = true ↔ ∃ r, r ∈ rs ∧ truthy r = true ∧ r ∈ ws.
Proof.
  induction rs as [|r rs IH]; simpl.
  - split; [done|]. intros (r & Hr & _). by apply elem_of_nil in Hr.
  - destruct (truthy r && bool_decide (r ∈ ws)) eqn:E.
    + apply andb_true_iff in E as [Ht Hw]. apply bool_decide_eq_true in Hw.
      split; [|done]. intros _. exists r. split; [left|done].
    + rewrite IH. split.
      * intros (r' & Hr' & Ht & Hw). exists r'. split; [by right|done].
      * intros (r' & Hr' & Ht & Hw). apply elem_of_cons in Hr' as [->|Hr'].
        -- apply andb_false_iff in E as [E|E]; [congruence|].
           by apply bool_decide_eq_false in E.
        -- by exists r'.
Qed.

End Invariants.

(** ** The claims about [step] *)

Section Claims.

Context {P : Type} `{BranchPredictor P}.

Implicit Types s : Pipeline P.

Lemma reachable_run n : ∀ s s',
  reachable s → run n s = (Val tt, s') → reachable s'.
Proof.
  induction n as [|n IH]; intros s s' Hs Hrun; simpl in Hrun.
  - unfold ret in Hrun. by simplify_eq.
  - unfold bind in Hrun. destruct (step s) as [[[]|e] s1] eqn:E; [|done].
    eapply IH; [|done]. by eapply reach_step.
Qed.

Lemma reachable_shape s :
  reachable s → 5 ≤ length (stages s) →
  ∃ r0 r1 r2 r3 r4 rest,
    pipeline_regs s = r0 :: r1 :: r2 :: r3 :: r4 :: rest
    ∧ length (stages s) ≤ length (pipeline_regs s).
Proof.
  intros Hs Hn. destruct (reachable_inv _ Hs) as [Hlen _ _ _].
  destruct (regs_shape (pipeline_regs s)) as (r0 & r1 & r2 & r3 & r4 & rest & Hr);
    [lia|].
  exists r0, r1, r2, r3, r4, rest. split; [done|lia].
Qed.

Lemma occupied_long s j e :
  reachable s → pipeline_regs s !! j = Some (Some e) → 5 ≤ length (stages s).
Proof.
  intros Hs Hj. destruct (reachable_inv _ Hs) as [Hlen _ Hshort _].
  destruct (decide (5 ≤ length (stages s))); [done|].
  specialize (Hshort ltac:(lia) j). unfold slot_at in Hshort.
  by rewrite Hj in Hshort.
Qed.

(** C1. In a reachable state whose decode register (1) and execute register
    (2) are both occupied, with a register read by the decode instruction in
    the write list of the execute instruction, one call of [step] returns,
    adds one to [stalls], records the stall event of the cycle, leaves
    registers 0 and 1 and the backlog as they were, empties register 2 and
    moves the old occupants of registers 2 and 3 to registers 3 and 4. *)
Theorem C1_stall_path s i1 a1 i2 a2 r :
  reachable s →
  pipeline_regs s !! 1 = Some (Some (i1, a1)) →
  pipeline_regs s !! 2 = Some (Some (i2, a2)) →
  r ∈ reads (objs s a1) → truthy r = true → r ∈ writes (objs s a2) →
  ∃ rec s',
    step s = (Val tt, s')
    ∧ stalls s' = stalls s + 1
    ∧ timeline s' = timeline s ++ [rec]
    ∧ dict_get (stall_key (cycle s')) rec = Some "DATA_STALL"
    ∧ pipeline_regs s' !! 0 = pipeline_regs s !! 0
    ∧ pipeline_regs s' !! 1 = pipeline_regs s !! 1
    ∧ instr_queue s' = instr_queue s
    ∧ pipeline_regs s' !! 2 = Some None
    ∧ pipeline_regs s' !! 3 = pipeline_regs s !! 2
    ∧ pipeline_regs s' !! 4 = pipeline_regs s !! 3.
Proof.
  intros Hs H1 H2 Hr Ht Hw.
  pose proof (occupied_long _ _ _ Hs H1) as Hlong.
  destruct (reachable_shape _ Hs Hlong)
    as (r0 & r1 & r2 & r3 & r4 & rest & Hregs & Hn).
  assert (stall_needed s = true) as Hstall.
  { unfold stall_needed, slot_at. rewrite H1, H2. simpl.
    apply hazard_loop_true. eauto. }
  destruct (step_spec s _ _ _ _ _ _ Hregs Hn)
    as (rec & s' & Hstep & _ & Hc & Htl & Hcase).
  destruct Hcase as [(_ & Hstl & _ & Hq & Hregs' & Hev & _)|(Hno & _)];
    [|congruence].
  exists rec, s'. rewrite Hc, Hregs', Hregs. done.
Qed.

(** Shared by the two statements about C3: a cycle that records a stall
    event records no branch outcome. *)
Lemma stall_excludes_branch s s' rec c :
  reachable s →
  step s = (Val tt, s') →
  timeline s' = timeline s ++ [rec] →
  dict_get (stall_key c) rec = Some "DATA_STALL" →
  ∀ i, dict_get (branch_key i) rec = None.
Proof.
  intros Hs Hstep Htl Hev.
  pose proof (step_val_long _ _ Hstep) as Hlong.
  destruct (reachable_inv _ Hs) as [Hlen _ _ _].
  destruct (reachable_shape _ Hs ltac:(lia))
    as (r0 & r1 & r2 & r3 & r4 & rest & Hregs & Hn).
  destruct (step_spec s _ _ _ _ _ _ Hregs Hn)
    as (rec' & s1 & Hstep' & _ & _ & Htl' & Hcase).
  assert (s1 = s') as -> by congruence.
  assert (rec' = rec) as ->.
  { rewrite Htl in Htl'. by apply app_inj_tail in Htl' as [_ ?]. }
  destruct Hcase as [(_ & _ & _ & _ & _ & _ & Hnb)|(_ & _ & _ & Hns & _)];
    [done|]. by rewrite Hns in Hev.
Qed.

(** C3, as the code has it.  When a call of [step] in a reachable state
    records a stall event, the event record of that cycle holds no branch
    outcome at all, so no misprediction event: on the stall path register 2
    is emptied before the branch resolution looks at it. *)
Theorem C3_stall_cycle_resolves_no_branch s s' rec c i :
  reachable s →
  step s = (Val tt, s') →
  timeline s' = timeline s ++ [rec] →
  dict_get (stall_key c) rec = Some "DATA_STALL" →
  dict_get (branch_key i) rec = None.
Proof. intros. by eapply stall_excludes_branch. Qed.

(** A call of [step] that returns appends exactly one event record and
    leaves the earlier ones alone, the length of the timeline is the cycle
    counter afterwards, and an instruction fetched by the call (in cycle
    [cycle s']) gets the index [cycle s' - 1]. *)
Lemma returning_step_timeline s s' :
  reachable s →
  step s = (Val tt, s') →
  length (timeline s') = cycle s'
  ∧ cycle s' = cycle s + 1
  ∧ (∃ rec, timeline s' = timeline s ++ [rec])
  ∧ ∀ idx instr, fetched s = Some (idx, instr) → idx = cycle s' - 1.
Proof.
  intros Hs Hstep.
  assert (reachable s') as Hs' by (by eapply reach_step).
  destruct (reachable_inv _ Hs) as [_ _ _ Hcyc].
  destruct (reachable_inv _ Hs') as [_ _ _ Hcyc'].
  pose proof (step_val_long _ _ Hstep) as Hlong.
  destruct (reachable_inv _ Hs) as [Hlen _ _ _].
  destruct (reachable_shape _ Hs ltac:(lia))
    as (r0 & r1 & r2 & r3 & r4 & rest & Hregs & Hn).
  destruct (step_spec s _ _ _ _ _ _ Hregs Hn)
    as (rec' & s1 & Hstep' & _ & Hc & Htl' & _).
  assert (s1 = s') as -> by congruence.
  repeat split; [done|done|by eauto|].
  intros idx instr Hf. unfold fetched in Hf.
  destruct (stall_needed s); [done|].
  destruct (instr_queue s); [done|]. simplify_eq. lia.
Qed.

(** C10, as the code has it.  [step] adds one to the cycle counter first
    (line 57) and appends the event record last (line 112).  After every
    call that returns, which is every call on an engine with at least five
    stages, exactly one record has been appended, the earlier ones are as
    they were, the length of the timeline is the cycle counter, and an
    instruction fetched in cycle [c] has the index [c - 1].  With fewer
    than five stages the call raises [IndexError] in between: the cycle
    counter has grown and the timeline has not. *)
Theorem C10_timeline_length_is_cycle s :
  reachable s →
  (∀ s', step s = (Val tt, s') →
         length (timeline s') = cycle s'
         ∧ cycle s' = cycle s + 1
         ∧ (∃ rec, timeline s' = timeline s ++ [rec])
         ∧ ∀ idx instr, fetched s = Some (idx, instr) → idx = cycle s' - 1)
  ∧ (5 ≤ length (stages s) → ∃ s', step s = (Val tt, s'))
  ∧ (length (stages s) < 5 →
     ∃ s', step s = (Raise IndexError, s')
           ∧ cycle s' = cycle s + 1
           ∧ timeline s' = timeline s).
Proof.
  intros Hs. split; [|split].
  - intros s' Hstep. by apply returning_step_timeline.
  - intros Hlong.
    destruct (reachable_shape _ Hs Hlong)
      as (r0 & r1 & r2 & r3 & r4 & rest & Hregs & Hn).
    destruct (step_spec s _ _ _ _ _ _ Hregs Hn) as (rec & s' & Hstep & _).
    by exists s'.
  - intros Hshort. destruct (reachable_inv _ Hs) as [Hlen _ _ _].
    destruct (step_short s) as (s' & Hstep & _ & _ & Htl & Hc); [lia|].
    by exists s'.
Qed.

End Claims.

(** C1 at the sample program: after three cycles [I2: ADD R2,R1] is in
    decode and [I1: LOAD R1] in execute. *)
Lemma C1_witness :
  let s := (run 3 (main_pipeline false)).2 in
  ∃ rec s',
    step s = (Val tt, s')
    ∧ stalls s' = stalls s + 1
    ∧ timeline s' = timeline s ++ [rec]
    ∧ dict_get (stall_key (cycle s')) rec = Some "DATA_STALL"
    ∧ pipeline_regs s' !! 0 = pipeline_regs s !! 0
    ∧ pipeline_regs s' !! 1 = pipeline_regs s !! 1
    ∧ instr_queue s' = instr_queue s
    ∧ pipeline_regs s' !! 2 = Some None
    ∧ pipeline_regs s' !! 3 = pipeline_regs s !! 2
    ∧ pipeline_regs s' !! 4 = pipeline_regs s !! 3.
Proof.
  intros s.
  apply (C1_stall_path s 1 1 0 0 (RStr "R1")).
  - apply (reachable_run 3 (main_pipeline false)); [constructor|vm_compute; reflexivity].
  - vm_compute; reflexivity.
  - vm_compute; reflexivity.
  - vm_compute. left.
  - vm_compute; reflexivity.
  - vm_compute. left.
Defined.

(** C3 as stated fails: no reachable state, whatever the program and the
    predictor, has a call of [step] that records both a stall event and a
    misprediction event. *)
Lemma C3_counterexample :
  ¬ ∃ (P : Type) (H : BranchPredictor P) (s s' : Pipeline P) rec c i,
      reachable s
      ∧ step s = (Val tt, s')
      ∧ timeline s' = timeline s ++ [rec]
      ∧ dict_get (stall_key c) rec = Some "DATA_STALL"
      ∧ dict_get (branch_key i) rec = Some "MISPREDICT".
Proof.
  intros (P & H & s & s' & rec & c & i & Hs & Hstep & Htl & Hst & Hbr).
  by rewrite (stall_excludes_branch s s' rec c Hs Hstep Htl Hst i) in Hbr.
Qed.

(** C3 (as the code has it) at the stall cycle of the sample program. *)
Lemma C3_witness :
  let s := (run 3 (main_pipeline false)).2 in
  let s' := (step s).2 in
  dict_get (branch_key 2) (nth 3 (timeline s') []) = None.
Proof.
  intros s s'.
  apply (C3_stall_cycle_resolves_no_branch s s' _ 4 2).
  - apply (reachable_run 3 (main_pipeline false)); [constructor|vm_compute; reflexivity].
  - vm_compute; reflexivity.
  - vm_compute; reflexivity.
  - vm_compute; reflexivity.
Defined.

(** C10 at the first cycle of the sample program. *)
Lemma C10_witness :
  let s := main_pipeline false in
  (∀ s', step s = (Val tt, s') →
         length (timeline s') = cycle s'
         ∧ cycle s' = cycle s + 1
         ∧ (∃ rec, timeline s' = timeline s ++ [rec])
         ∧ ∀ idx instr, fetched s = Some (idx, instr) → idx = cycle s' - 1)
  ∧ (5 ≤ length (stages s) → ∃ s', step s = (Val tt, s'))
  ∧ (length (stages s) < 5 →
     ∃ s', step s = (Raise IndexError, s')
           ∧ cycle s' = cycle s + 1
           ∧ timeline s' = timeline s).
Proof.
  intros s. apply (C10_timeline_length_is_cycle s). constructor.
Defined.

(** C10 as stated fails: with the four stages IF, ID, EX, MEM the constructor
    returns an engine, and its first call of [step] raises [IndexError]
    after line 57 and before line 112.  After that call the cycle counter is
    1 and the timeline is empty; a second call leaves them at 2 and 0. *)
Lemma C10_counterexample :
  let s := init ["IF"; "ID"; "EX"; "MEM"] (store_of sample_program)
             [0; 1; 2; 3; 4] (static_not_taken (λ _, false)) in
  (step s).1 = Raise IndexError
  ∧ cycle (step s).2 = 1
  ∧ length (timeline (step s).2) = 0
  ∧ (step (step s).2).1 = Raise IndexError
  ∧ cycle (step (step s).2).2 = 2
  ∧ length (timeline (step (step s).2).2) = 0.
Proof. vm_compute. done. Qed.

Section Squash.

Context {P : Type} `{BranchPredictor P}.

Implicit Types s : Pipeline P.

(** The backlog only ever loses its front. *)
Lemma queue_suffix_step s s' :
  reachable s → step s = (Val tt, s') →
  instr_queue s' `suffix_of` instr_queue s.
Proof.
  intros Hs Hstep.
  pose proof (step_val_long _ _ Hstep) as Hlong.
  destruct (reachable_inv _ Hs) as [Hlen _ _ _].
  destruct (reachable_shape _ Hs ltac:(lia))
    as (r0 & r1 & r2 & r3 & r4 & rest & Hregs & Hn).
  destruct (step_spec s _ _ _ _ _ _ Hregs Hn)
    as (rec' & s1 & Hstep' & _ & _ & _ & Hcase).
  assert (s1 = s') as -> by congruence.
  destruct Hcase as [(_ & _ & _ & -> & _)|(_ & _ & -> & _)]; [done|].
  destruct (instr_queue s) as [|a q]; simpl; [done|]. by apply suffix_cons_r.
Qed.

Lemma queue_suffix_run n : ∀ s s',
  reachable s → run n s = (Val tt, s') →
  instr_queue s' `suffix_of` instr_queue s.
Proof.
  induction n as [|n IH]; intros s s' Hs Hrun; simpl in Hrun.
  - unfold ret in Hrun. by simplify_eq.
  - unfold bind in Hrun. destruct (step s) as [[[]|e] s1] eqn:E; [|done].
    etrans; [eapply IH; [|done]|]; [by eapply reach_step|].
    by eapply queue_suffix_step.
Qed.

(** C2. When, after the stage shift of a call of [step], register 2 holds a
    branch whose resolved outcome differs from its stored prediction, the
    call adds one to [flushed], records the misprediction under the index of
    that branch, and ends with registers 0 and 1 empty; the backlog is the
    one the shift left, and no later call ever puts anything back into it. *)
Theorem C2_misprediction_squash s fr s1 idx a :
  reachable s →
  step_front s = (Val fr, s1) →
  pipeline_regs s1 !! 2 = Some (Some (idx, a)) →
  is_branch (objs s1 a) = true →
  differs (predicted_taken (objs s1 a))
    (actual_outcome (branch_predictor s1) (objs s1 a)).1 = true →
  ∃ rec s',
    step s = (Val tt, s')
    ∧ flushed s' = flushed s + 1
    ∧ timeline s' = timeline s ++ [rec]
    ∧ dict_get (branch_key idx) rec = Some "MISPREDICT"
    ∧ pipeline_regs s' !! 0 = Some None
    ∧ pipeline_regs s' !! 1 = Some None
    ∧ instr_queue s' = instr_queue s1
    ∧ ∀ n s'', run n s' = (Val tt, s'') →
               instr_queue s'' `suffix_of` instr_queue s'.
Proof.
  intros Hs Hfr H2 Hbr Hdiff.
  assert (5 ≤ length (pipeline_regs s)) as Hlong.
  { destruct (decide (5 ≤ length (pipeline_regs s))); [done|].
    destruct (step_front_short s) as (? & ? & _); [lia|congruence]. }
  destruct (reachable_inv _ Hs) as [Hlen _ _ _].
  destruct (reachable_shape _ Hs ltac:(lia))
    as (r0 & r1 & r2 & r3 & r4 & rest & Hregs & Hn).
  destruct (step_front_spec s _ _ _ _ _ _ Hregs)
    as (ev & s1' & Hfr' & Hst & Hc & Htl & Hfl & Hnb & Hcase).
  rewrite Hfr in Hfr'. simplify_eq. simpl in *.
  assert (∃ x0 x1 x2 rest', pipeline_regs s1' = x0 :: x1 :: x2 :: rest'
            ∧ length (pipeline_regs s1') = length (pipeline_regs s))
    as (x0 & x1 & x2 & rest' & Hregs1 & Hlen1).
  { destruct Hcase as [(_ & _ & _ & -> & _)|(_ & _ & _ & -> & _)];
      rewrite Hregs; eauto 10. }
  destruct (step_back_spec s1' (length (stages s)) ev _ _ _ _ Hregs1)
    as (rec & s' & Hbk & Hst' & Hc' & Hstl' & Hq' & Htl' & Hoth & Hnone
        & Hcase'); [lia|].
  assert (x2 = Some (idx, a)) as -> by (rewrite Hregs1 in H2; by simplify_eq/=).
  assert (mispredicts s1' (Some (idx, a)) = true) as Hmis.
  { unfold mispredicts. by rewrite Hbr, Hdiff. }
  destruct Hcase' as [(_ & Hfl' & Hregs' & idx' & a' & ? & Hev)|(Hno & _)];
    [|congruence].
  simplify_eq.
  exists rec, s'. rewrite step_unfold, Hfr. simpl.
  rewrite Hfl', Htl', Hregs', Hfl, Htl. repeat (split; [done|]).
  intros n s'' Hrun. eapply queue_suffix_run; [|done].
  eapply reach_step; [done|]. by rewrite step_unfold, Hfr.
Qed.

End Squash.

(** C2 at the sample program: the seventh cycle resolves [I3] taken against
    the static not-taken prediction. *)
Lemma C2_witness :
  let s := (run 6 (main_pipeline true)).2 in
  ∃ rec s',
    step s = (Val tt, s')
    ∧ flushed s' = flushed s + 1
    ∧ timeline s' = timeline s ++ [rec]
    ∧ dict_get (branch_key 2) rec = Some "MISPREDICT"
    ∧ pipeline_regs s' !! 0 = Some None
    ∧ pipeline_regs s' !! 1 = Some None
    ∧ instr_queue s' = instr_queue (step_front s).2
    ∧ ∀ n s'', run n s' = (Val tt, s'') →
               instr_queue s'' `suffix_of` instr_queue s'.
Proof.
  intros s.
  apply (C2_misprediction_squash s (5, [])%nat (step_front s).2 2 2).
  - apply (reachable_run 6 (main_pipeline true)); [constructor|vm_compute; reflexivity].
  - vm_compute; reflexivity.
  - vm_compute; reflexivity.
  - vm_compute; reflexivity.
  - vm_compute; reflexivity.
Defined.

Section StageCount.

Context {P : Type} `{BranchPredictor P}.

Implicit Types s : Pipeline P.

(** C5, as the code has it.  The stage shift names the registers 0 to 4.
    With fewer than five stages every call of [step] raises [IndexError].
    With five or more, a call returns: the hazard check reads registers 1
    and 2 ([stall_needed]), the resolution looks at register 2 after the
    shift, occupants move through registers 0 to 4 and leave from register
    4, and the registers from 5 on are never written and stay empty. *)
Theorem C5_five_registers s :
  reachable s →
  (length (stages s) < 5 → ∃ s', step s = (Raise IndexError, s'))
  ∧ (5 ≤ length (stages s) →
     ∃ rec s',
       step s = (Val tt, s')
       ∧ timeline s' = timeline s ++ [rec]
       ∧ pipeline_regs s' !! 3 = pipeline_regs s !! 2
       ∧ pipeline_regs s' !! 4 = pipeline_regs s !! 3
       ∧ (∀ j, 5 ≤ j → pipeline_regs s' !! j = pipeline_regs s !! j
                        ∧ slot_at s' j = None)
       ∧ ((stall_needed s = true
           ∧ dict_get (stall_key (cycle s')) rec = Some "DATA_STALL"
           ∧ pipeline_regs s' !! 2 = Some None
           ∧ pipeline_regs s' !! 1 = pipeline_regs s !! 1
           ∧ pipeline_regs s' !! 0 = pipeline_regs s !! 0)
          ∨ (stall_needed s = false
             ∧ (∀ c, dict_get (stall_key c) rec = None)
             ∧ pipeline_regs s' !! 2 = pipeline_regs s !! 1
             ∧ ((pipeline_regs s' !! 1 = pipeline_regs s !! 0
                 ∧ pipeline_regs s' !! 0 = Some (refill s)
                 ∧ ∀ i, dict_get (branch_key i) rec ≠ Some "MISPREDICT")
                ∨ (pipeline_regs s' !! 1 = Some None
                   ∧ pipeline_regs s' !! 0 = Some None
                   ∧ ∃ idx a, pipeline_regs s' !! 2 = Some (Some (idx, a))
                       ∧ dict_get (branch_key idx) rec = Some "MISPREDICT"))))).
Proof.
  intros Hs. destruct (reachable_inv _ Hs) as [Hlen Htail _ _]. split.
  - intros Hshort. destruct (step_short s) as (s' & Hs' & _); [lia|]. eauto.
  - intros Hlong.
    destruct (reachable_shape _ Hs Hlong)
      as (r0 & r1 & r2 & r3 & r4 & rest & Hregs & Hn).
    destruct (step_spec s _ _ _ _ _ _ Hregs Hn)
      as (rec & s' & Hstep & _ & Hc & Htl & Hcase).
    assert (reachable s') as Hs' by (by eapply reach_step).
    destruct (reachable_inv _ Hs') as [_ Htail' _ _].
    exists rec, s'. split; [done|]. split; [done|].
    assert (∃ x0 x1 x2,
      pipeline_regs s' = x0 :: x1 :: x2 :: r2 :: r3 :: rest)
      as (x0 & x1 & x2 & Hregs').
    { destruct Hcase as [(_ & _ & _ & _ & -> & _)
                        |(_ & _ & _ & _ & [(_ & -> & _)|(_ & -> & _)])];
        eauto 10. }
    split; [by rewrite Hregs', Hregs|]. split; [by rewrite Hregs', Hregs|].
    split.
    { intros j Hj. split; [|by apply Htail'].
      rewrite Hregs', Hregs. by replace j with (5 + (j - 5)) by lia. }
    destruct Hcase as [(Hst & _ & _ & _ & Hr' & Hev & _)
                      |(Hst & _ & _ & Hns & Hcase)].
    + left. rewrite Hc, Hr', Hregs. done.
    + right. do 2 (split; [done|]).
      destruct Hcase as [(_ & Hr' & idx & a & -> & Hev)|(_ & Hr' & Hno)].
      * rewrite Hr', Hregs. split; [done|]. right. eauto 10.
      * rewrite Hr', Hregs. split; [done|]. by left.
Qed.

(** C9, as the code has it.  [__init__] checks nothing: for every stage
    list it returns an engine with one empty register per stage and all
    counters at zero.  A stage list shorter than five (so also one shorter
    than three) is rejected only by the first call of [step]. *)
Theorem C9_constructor_accepts_any_stage_list
    (stage_names : list string) (store : addr → Instruction)
    (instructions : list addr) (bp : P) :
  let s := init stage_names store instructions bp in
  stages s = stage_names
  ∧ instr_queue s = instructions
  ∧ pipeline_regs s = replicate (length stage_names) None
  ∧ cycle s = 0 ∧ stalls s = 0 ∧ flushed s = 0 ∧ timeline s = []
  ∧ (length stage_names < 5 → ∃ s', step s = (Raise IndexError, s')).
Proof.
  simpl. repeat (split; [done|]). intros Hshort.
  destruct (step_short (init stage_names store instructions bp))
    as (s' & Hs' & _); [|by eauto].
  simpl. by rewrite length_replicate.
Qed.

End StageCount.

(** C5 at the engine of [main], in its first cycle. *)
Lemma C5_witness :
  let s := main_pipeline false in
  (length (stages s) < 5 → ∃ s', step s = (Raise IndexError, s'))
  ∧ (5 ≤ length (stages s) →
     ∃ rec s',
       step s = (Val tt, s')
       ∧ timeline s' = timeline s ++ [rec]
       ∧ pipeline_regs s' !! 3 = pipeline_regs s !! 2
       ∧ pipeline_regs s' !! 4 = pipeline_regs s !! 3
       ∧ (∀ j, 5 ≤ j → pipeline_regs s' !! j = pipeline_regs s !! j
                        ∧ slot_at s' j = None)
       ∧ ((stall_needed s = true
           ∧ dict_get (stall_key (cycle s')) rec = Some "DATA_STALL"
           ∧ pipeline_regs s' !! 2 = Some None
           ∧ pipeline_regs s' !! 1 = pipeline_regs s !! 1
           ∧ pipeline_regs s' !! 0 = pipeline_regs s !! 0)
          ∨ (stall_needed s = false
             ∧ (∀ c, dict_get (stall_key c) rec = None)
             ∧ pipeline_regs s' !! 2 = pipeline_regs s !! 1
             ∧ ((pipeline_regs s' !! 1 = pipeline_regs s !! 0
                 ∧ pipeline_regs s' !! 0 = Some (refill s)
                 ∧ ∀ i, dict_get (branch_key i) rec ≠ Some "MISPREDICT")
                ∨ (pipeline_regs s' !! 1 = Some None
                   ∧ pipeline_regs s' !! 0 = Some None
                   ∧ ∃ idx a, pipeline_regs s' !! 2 = Some (Some (idx, a))
                       ∧ dict_get (branch_key idx) rec = Some "MISPREDICT"))))).
Proof.
  intros s. apply (C5_five_registers s). constructor.
Defined.

(** C5 as stated fails at both ends.  With the three stages IF, ID, EX the
    first call of [step] raises [IndexError].  With six stages the sample
    program runs to completion in twelve cycles and register 5, the final
    stage, is empty after every one of them: the instructions leave from
    register 4. *)
Lemma C5_counterexample :
  (step (init ["IF"; "ID"; "EX"] (store_of sample_program) [0; 1; 2; 3; 4]
           (static_not_taken (λ _, false)))).1 = Raise IndexError
  ∧ let s6 := init ["IF"; "ID"; "EX"; "MEM"; "WB"; "RET"]
                (store_of sample_program) [0; 1; 2; 3; 4]
                (static_not_taken (λ _, false)) in
    is_done (run 12 s6).2 = true
    ∧ Forall (λ n, pipeline_regs (run n s6).2 !! 5 = Some None
                   ∧ (run n s6).1 = Val tt) (seq 0 13)
    ∧ pipeline_regs (run 11 s6).2 !! 4 = Some (Some (6, 4)).
Proof.
  split; [vm_compute; reflexivity|]. intros s6.
  split; [vm_compute; reflexivity|].
  split; [|vm_compute; reflexivity].
  repeat constructor; vm_compute; reflexivity.
Qed.

(** C9 as stated fails: with the two stages IF, ID the constructor returns
    an engine, which reports work to do; the configuration error shows only
    when [step] is called. *)
Lemma C9_counterexample :
  let s := init ["IF"; "ID"] (store_of sample_program) [0; 1; 2; 3; 4]
             (static_not_taken (λ _, false)) in
  pipeline_regs s = [None; None]
  ∧ cycle s = 0
  ∧ is_done s = false
  ∧ (step s).1 = Raise IndexError.
Proof. vm_compute. done. Qed.

(** ** Termination of the driving loop *)

Section Termination.

Context {P : Type} `{BranchPredictor P}.

Implicit Types s : Pipeline P.

Lemma is_done_remaining s r0 r1 r2 r3 r4 rest :
  pipeline_regs s = r0 :: r1 :: r2 :: r3 :: r4 :: rest →
  (∀ j, 5 ≤ j → slot_at s j = None) →
  remaining s = 0 → is_done s = true.
Proof.
  intros Hr Htail Hrem. unfold remaining in Hrem. unfold is_done.
  destruct (instr_queue s) as [|a q]; [|simpl in Hrem; lia].
  rewrite Hr in *. simpl in Hrem.
  assert (existsb (λ e : slot, if e is Some _ then true else false) rest
          = false) as Hrest.
  { apply not_true_is_false. intros Hex.
    apply existsb_exists in Hex as (e & Hin & He).
    apply list_elem_of_In, list_elem_of_lookup in Hin as [j Hj].
    specialize (Htail (5 + j) ltac:(lia)). unfold slot_at in Htail.
    rewrite Hr in Htail. simpl in Htail. rewrite Hj in Htail. by subst. }
  destruct r0, r1, r2, r3, r4; simpl in *; try lia. by rewrite Hrest.
Qed.

(** A call of [step] either stalls, which drains register 2 and keeps the
    rest of the work, or is a normal cycle, which does one unit of it. *)
Lemma step_progress s :
  reachable s → 5 ≤ length (stages s) → 0 < remaining s →
  ∃ s', step s = (Val tt, s')
    ∧ ((stalls s' = stalls s + 1 ∧ remaining s' = remaining s
        ∧ occupied (slot_at s 2) = true ∧ occupied (slot_at s' 2) = false)
       ∨ (stalls s' = stalls s ∧ remaining s' < remaining s)).
Proof.
  intros Hs Hlong Hrem.
  destruct (reachable_shape _ Hs Hlong)
    as (r0 & r1 & r2 & r3 & r4 & rest & Hregs & Hn).
  destruct (step_spec s _ _ _ _ _ _ Hregs Hn)
    as (rec & s' & Hstep & _ & _ & _ & Hcase).
  exists s'. split; [done|].
  destruct Hcase as [(Hst & Hstl & _ & Hq & Hr' & _)
                    |(_ & Hstl & Hq & _ & Hcase)].
  - left. split; [done|].
    unfold stall_needed, slot_at in Hst. rewrite Hregs in Hst. simpl in Hst.
    destruct r1 as [[i1 a1]|]; [|done]. destruct r2 as [[i2 a2]|]; [|done].
    unfold remaining, slot_at. rewrite Hq, Hr', Hregs. simpl.
    split; [|done]. by destruct (instr_queue s), r0.
  - right. split; [done|]. unfold remaining in *. rewrite Hq.
    assert (∃ x0 x1, pipeline_regs s' = x0 :: x1 :: r1 :: r2 :: r3 :: rest
              ∧ (instr_queue s = [] → x0 = None ∧ (x1 = None ∨ x1 = r0)))
      as (x0 & x1 & Hr' & Hx).
    { destruct Hcase as [(_ & -> & _)|(_ & -> & _)].
      - exists None, None. eauto.
      - exists (refill s), r0. split; [done|]. intros Hq0.
        unfold refill. rewrite Hq0. eauto. }
    rewrite Hr'. destruct (instr_queue s) as [|a [|b q]] eqn:Eq; simpl.
    + destruct Hx as [-> Hx1]; [done|]. rewrite Hregs in Hrem |- *.
      destruct Hx1 as [-> | ->]; destruct r0, r1, r2, r3, r4; simpl in *; lia.
    + destruct x0, x1, r1, r2, r3; simpl; lia.
    + lia.
Qed.

Lemma run_to_done k : ∀ s,
  reachable s → 5 ≤ length (stages s) →
  2 * remaining s + (if occupied (slot_at s 2) then 1 else 0) ≤ k →
  ∃ n s', run n s = (Val tt, s')
    ∧ is_done s' = true
    ∧ n + stalls s ≤ remaining s + stalls s'.
Proof.
  induction k as [|k IH]; intros s Hs Hlong Hk.
  - exists 0, s. split; [done|]. split; [|lia].
    destruct (reachable_shape _ Hs Hlong)
      as (r0 & r1 & r2 & r3 & r4 & rest & Hregs & Hn).
    eapply is_done_remaining; [done| |lia].
    by destruct (reachable_inv _ Hs).
  - destruct (decide (remaining s = 0)) as [Hz|Hnz].
    { exists 0, s. split; [done|]. split; [|lia].
      destruct (reachable_shape _ Hs Hlong)
        as (r0 & r1 & r2 & r3 & r4 & rest & Hregs & Hn).
      eapply is_done_remaining; [done| |done].
      by destruct (reachable_inv _ Hs). }
    destruct (step_progress s Hs Hlong) as (s1 & Hstep & Hcase); [lia|].
    assert (reachable s1) as Hs1 by (by eapply reach_step).
    assert (stages s1 = stages s) as Hst1.
    { destruct (reachable_shape _ Hs Hlong)
        as (r0 & r1 & r2 & r3 & r4 & rest & Hregs & Hn).
      destruct (step_spec s _ _ _ _ _ _ Hregs Hn)
        as (rec & s' & Hstep' & Hst & _). congruence. }
    destruct (IH s1) as (n & s' & Hrun & Hdone & Hbound);
      [done|by rewrite Hst1| |].
    { destruct Hcase as [(_ & -> & Ho & ->)|(_ & Hlt)].
      - rewrite Ho in Hk. lia.
      - destruct (occupied (slot_at s1 2)), (occupied (slot_at s 2)); lia. }
    exists (S n), s'. split.
    { simpl. unfold bind. by rewrite Hstep. }
    split; [done|].
    destruct Hcase as [(Hstl & Hrem & _)|(Hstl & Hlt)]; lia.
Qed.

Lemma dict_set_fresh k v (d : events) :
  k ∉ d.*1 → dict_set k v d = d ++ [(k, v)].
Proof.
  induction d as [|[k' v'] d IH]; simpl; [done|].
  intros Hk. apply not_elem_of_cons in Hk as [Hne Hk].
  case_decide; [congruence|]. by rewrite IH.
Qed.

Lemma snapshot_events_empty s n : ∀ a (ev : events),
  (∀ j, slot_at s j = None) →
  (∀ j, a ≤ j → stage_key j ∉ ev.*1) →
  snapshot_events s (seq a n) ev = ev ++ empty_snapshot a n.
Proof.
  induction n as [|n IH]; intros a ev Hnone Hfresh; simpl.
  - by rewrite app_nil_r.
  - rewrite Hnone. simpl. rewrite dict_set_fresh by (by apply Hfresh).
    rewrite IH; [by rewrite <- app_assoc|done|].
    intros j Hj. rewrite fmap_app. simpl. intros Hin.
    apply elem_of_app in Hin as [Hin|Hin]; [by apply (Hfresh j); [lia|]|].
    apply list_elem_of_singleton in Hin. unfold stage_key in Hin.
    simplify_eq. lia.
Qed.

(** Once done, a call of [step] changes the cycle counter and the timeline
    and nothing else. *)
Lemma step_done s :
  reachable s → 5 ≤ length (stages s) → is_done s = true →
  step s =
    (Val tt,
     with_timeline (timeline s ++ [empty_snapshot 0 (length (stages s))])
       (with_cycle (cycle s + 1) s)).
Proof.
  intros Hs Hlong Hdone.
  destruct (reachable_shape _ Hs Hlong)
    as (r0 & r1 & r2 & r3 & r4 & rest & Hregs & Hn).
  destruct (reachable_inv _ Hs) as [_ Htail _ _].
  unfold is_done in Hdone. rewrite Hregs in Hdone, Hn.
  destruct s as [st q regs c stl fl bp tl ob]. simpl in *. subst regs.
  destruct r0, r1, r2, r3, r4; simpl in Hdone; try done.
  destruct (existsb _ rest) eqn:Hrest; [done|].
  destruct q; [|done].
  rewrite step_unfold. unfold step_front, step_back.
  unfold hazard_check, predict_block, shift_block, resolve_block, squash,
    bind, ret, gets, modify, reg_load, reg_store, deref, notify; simpl.
  rewrite snapshot_seq by (simpl in *; lia). simpl.
  rewrite snapshot_events_empty; [done| |intros j _; apply not_elem_of_nil].
  intros j. destruct (decide (5 ≤ j)) as [Hj|Hj].
  - specialize (Htail j Hj). by unfold slot_at in *.
  - unfold slot_at. simpl.
    destruct j as [|[|[|[|[|j]]]]]; simpl; try done. lia.
Qed.

End Termination.

Section Termination_claim.

Context {P : Type} `{BranchPredictor P}.

Implicit Types s : Pipeline P.

(** C7, as the code has it.  With at least five stages, the loop that calls
    [step] on a fresh engine reaches [is_done] within
    backlog length + 5 + stalls calls (so within backlog length + stage
    count + stalls).  A call of [step] on a done engine returns and leaves
    the backlog and every register empty; it adds one to the cycle counter
    and appends one record to the timeline, the snapshot of the empty
    registers, and changes nothing else. *)
Theorem C7_termination (stage_names : list string)
    (store : addr → Instruction) (instructions : list addr) (bp : P) :
  5 ≤ length stage_names →
  (∃ n s,
     run n (init stage_names store instructions bp) = (Val tt, s)
     ∧ is_done s = true
     ∧ n ≤ length instructions + 5 + stalls s
     ∧ n ≤ length instructions + length stage_names + stalls s)
  ∧ ∀ s, reachable s → stages s = stage_names → is_done s = true →
      ∃ s', step s = (Val tt, s')
        ∧ is_done s' = true
        ∧ instr_queue s' = []
        ∧ (∀ j, slot_at s' j = None)
        ∧ s' = with_timeline
                 (timeline s ++ [empty_snapshot 0 (length stage_names)])
                 (with_cycle (cycle s + 1) s).
Proof.
  intros Hlong. split.
  - set (s0 := init stage_names store instructions bp).
    assert (reachable s0) as Hs0 by constructor.
    destruct (run_to_done
                (2 * remaining s0 + (if occupied (slot_at s0 2) then 1 else 0))
                s0 Hs0 Hlong ltac:(lia))
      as (n & s & Hrun & Hdone & Hbound).
    exists n, s. repeat (split; [done|]).
    assert (remaining s0 ≤ length instructions + 5) as Hrem.
    { unfold remaining, s0. simpl. destruct instructions; simpl; [|lia].
      destruct (length stage_names) as [|[|[|[|[|m]]]]]; simpl; lia. }
    simpl in Hbound. lia.
  - intros s Hs Hst Hdone. rewrite <- Hst in *.
    rewrite (step_done s Hs Hlong Hdone). eexists. split; [done|].
    assert (instr_queue s = []) as Hq.
    { unfold is_done in Hdone. destruct (existsb _ _); [done|].
      by destruct (instr_queue s). }
    repeat split; try done.
    intros j. unfold slot_at. simpl.
    unfold is_done in Hdone.
    destruct (existsb _ (pipeline_regs s)) eqn:Hex; [done|].
    destruct (pipeline_regs s !! j) as [[e|]|] eqn:Hj; try done.
    assert (existsb (λ e : slot, if e is Some _ then true else false)
              (pipeline_regs s) = true); [|congruence].
    apply existsb_exists. exists (Some e). split; [|done].
    apply list_elem_of_In, list_elem_of_lookup. eauto.
Qed.

End Termination_claim.

(** C7 at the engine of [main]. *)
Lemma C7_witness :
  (∃ n s,
     run n (main_pipeline false) = (Val tt, s)
     ∧ is_done s = true
     ∧ n ≤ 5 + 5 + stalls s
     ∧ n ≤ 5 + 5 + stalls s)
  ∧ ∀ s : Pipeline SimpleBranchPredictor,
      reachable s → stages s = main_stages → is_done s = true →
      ∃ s', step s = (Val tt, s')
        ∧ is_done s' = true
        ∧ instr_queue s' = []
        ∧ (∀ j, slot_at s' j = None)
        ∧ s' = with_timeline (timeline s ++ [empty_snapshot 0 5])
                 (with_cycle (cycle s + 1) s).
Proof.
  apply (C7_termination main_stages (store_of sample_program) [0; 1; 2; 3; 4]
           (static_not_taken (λ _, false))).
  vm_compute. lia.
Defined.

(** C7 as stated fails in two places.  With the three stages IF, ID, EX and
    one instruction, every call of [step] raises [IndexError] and the engine
    is never done.  With five stages and an empty program the engine is done
    from the start, and a further call of [step] lengthens the timeline. *)
Lemma C7_counterexample :
  (let s3 := init ["IF"; "ID"; "EX"] (store_of sample_program) [0]
               (static_not_taken (λ _, false)) in
   is_done s3 = false
   ∧ ∀ n, (run (S n) s3).1 = Raise IndexError
          ∧ is_done (run (S n) s3).2 = false)
  ∧ (let s5 := init main_stages (store_of sample_program) []
                 (static_not_taken (λ _, false)) in
     is_done s5 = true
     ∧ length (timeline s5) = 0
     ∧ length (timeline (step s5).2) = 1).
Proof.
  split; [|vm_compute; done].
  intros s3. split; [vm_compute; done|]. intros n.
  assert (step s3 = (Raise IndexError, with_cycle 1 s3)) as E
    by (vm_compute; reflexivity).
  cbn [run]. unfold bind. rewrite E. vm_compute. done.
Qed.

(** ** Program-order indices *)

Section Indices.

Context {P : Type} `{BranchPredictor P}.

Implicit Types s : Pipeline P.

(** What [fetched] names is what the stage shift writes to register 0, and
    it comes off the front of the backlog. *)
Lemma fetched_spec s fr s1 :
  reachable s → step_front s = (Val fr, s1) →
  match fetched s with
  | Some (idx, instr) =>
      pipeline_regs s1 !! 0 = Some (Some (idx, instr))
      ∧ instr_queue s = instr :: instr_queue s1
      ∧ idx = length (timeline s)
  | None =>
      instr_queue s1 = instr_queue s
      ∧ (stall_needed s = true → pipeline_regs s1 !! 0 = pipeline_regs s !! 0)
      ∧ (stall_needed s = false → pipeline_regs s1 !! 0 = Some None)
  end.
Proof.
  intros Hs Hfr.
  assert (5 ≤ length (pipeline_regs s)) as Hlong.
  { destruct (decide (5 ≤ length (pipeline_regs s))); [done|].
    destruct (step_front_short s) as (? & ? & _); [lia|congruence]. }
  destruct (regs_shape _ Hlong) as (r0 & r1 & r2 & r3 & r4 & rest & Hregs).
  destruct (step_front_spec s _ _ _ _ _ _ Hregs)
    as (ev & s1' & Hfr' & _ & _ & _ & _ & _ & Hcase).
  rewrite Hfr in Hfr'. simplify_eq. unfold fetched, refill in *.
  destruct Hcase as [(-> & _ & Hq & Hr' & _)|(-> & _ & Hq & Hr' & _)].
  - rewrite Hq, Hr', Hregs. done.
  - rewrite Hq, Hr'. by destruct (instr_queue s).
Qed.

Lemma step_timeline s s' :
  reachable s → step s = (Val tt, s') →
  length (timeline s') = length (timeline s) + 1
  ∧ ∀ idx instr, fetched s = Some (idx, instr) → idx = length (timeline s).
Proof.
  intros Hs Hstep.
  pose proof (step_val_long _ _ Hstep) as Hlong.
  destruct (reachable_inv _ Hs) as [Hlen _ _ _].
  destruct (reachable_shape _ Hs ltac:(lia))
    as (r0 & r1 & r2 & r3 & r4 & rest & Hregs & Hn).
  destruct (step_spec s _ _ _ _ _ _ Hregs Hn)
    as (rec' & s1 & Hstep' & _ & _ & Htl' & _).
  assert (s1 = s') as -> by congruence.
  split; [rewrite Htl', length_app; simpl; lia|].
  intros idx instr Hf. unfold fetched in Hf.
  destruct (stall_needed s); [done|].
  destruct (instr_queue s); [done|]. by simplify_eq.
Qed.

Lemma fetch_log_sorted n : ∀ s,
  reachable s →
  StronglySorted lt (fetch_log n s)
  ∧ Forall (λ i, length (timeline s) ≤ i) (fetch_log n s).
Proof.
  induction n as [|n IH]; intros s Hs; simpl.
  - split; constructor.
  - destruct (step s) as [[[]|e] s'] eqn:Hstep; [|split; constructor].
    assert (reachable s') as Hs' by (by eapply reach_step).
    destruct (IH s' Hs') as [Hsorted Hge].
    destruct (step_timeline s s' Hs Hstep) as [Htl Hf].
    assert (Forall (λ i, length (timeline s) < i) (fetch_log n s')) as Hgt.
    { eapply Forall_impl; [done|]. simpl. intros i Hi. lia. }
    destruct (fetched s) as [[i a]|] eqn:Ef; simpl.
    + rewrite (Hf i a eq_refl). split.
      * by constructor.
      * constructor; [lia|]. eapply Forall_impl; [done|]. simpl. lia.
    + split; [done|]. eapply Forall_impl; [done|]. simpl. lia.
Qed.

Lemma run_timeline k : ∀ s sk,
  reachable s → run k s = (Val tt, sk) →
  length (timeline sk) = length (timeline s) + k.
Proof.
  induction k as [|k IH]; intros s sk Hs Hrun; simpl in Hrun.
  - unfold ret in Hrun. simplify_eq. lia.
  - unfold bind in Hrun. destruct (step s) as [[[]|e] s1] eqn:Hs1; [|done].
    destruct (step_timeline s s1 Hs Hs1) as [Htl _].
    rewrite (IH s1 sk); [lia|by eapply reach_step|done].
Qed.

Lemma sorted_lt_NoDup (l : list nat) : StronglySorted lt l → NoDup l.
Proof.
  induction 1 as [|x l Hl IH Hx]; constructor; [|done].
  intros Hin. eapply Forall_forall in Hx; [|done]. lia.
Qed.

Lemma fetch_log_mem n : ∀ s k sk sk',
  reachable s → k < n →
  run k s = (Val tt, sk) → step sk = (Val tt, sk') →
  length (timeline s) + k ∈ fetch_log n s ↔ is_Some (fetched sk).
Proof.
  induction n as [|n IH]; intros s k sk sk' Hs Hk Hrun Hstep; [lia|].
  destruct k as [|k]; simpl in Hrun.
  - unfold ret in Hrun. simplify_eq. simpl. rewrite Hstep.
    assert (reachable sk') as Hs' by (by eapply reach_step).
    destruct (step_timeline sk sk' Hs Hstep) as [Htl Hf].
    destruct (fetch_log_sorted n sk' Hs') as [_ Hge].
    assert (length (timeline sk) + 0 ∉ fetch_log n sk') as Hnot.
    { intros Hin. eapply Forall_forall in Hge; [|done]. lia. }
    destruct (fetched sk) as [[i a]|] eqn:Ef; simpl.
    + rewrite (Hf i a eq_refl). split; [by eauto|]. intros _.
      rewrite Nat.add_0_r. left.
    + split; [done|]. by intros [? ?].
  - unfold bind in Hrun. destruct (step s) as [[[]|e] s1] eqn:Hs1; [|done].
    assert (reachable s1) as Hr1 by (by eapply reach_step).
    destruct (step_timeline s s1 Hs Hs1) as [Htl Hf].
    simpl. rewrite Hs1.
    rewrite <- (IH s1 k sk sk' Hr1 ltac:(lia) Hrun Hstep).
    replace (length (timeline s) + S k) with (length (timeline s1) + k) by lia.
    rewrite elem_of_app. split; [|by right]. intros [Hin|Hin]; [|done].
    destruct (fetched s) as [[i a]|] eqn:Ef.
    + rewrite (Hf i a eq_refl) in Hin. apply list_elem_of_singleton in Hin. lia.
    + by apply elem_of_nil in Hin.
Qed.

(** C4, as the code has it.  Over the first [n] calls of [step] on a fresh
    engine the indices given to the fetched instructions increase strictly,
    so none is given twice.  The call number [k+1] gives the index [k], the
    length of the timeline, when it fetches; so the index [k] is missing
    exactly when that call fetched nothing: it took the stall path, or the
    backlog was empty.  A squash leaves no gap. *)
Theorem C4_indices (stage_names : list string) (store : addr → Instruction)
    (instructions : list addr) (bp : P) (n k : nat) (sk sk' : Pipeline P) :
  k < n →
  run k (init stage_names store instructions bp) = (Val tt, sk) →
  step sk = (Val tt, sk') →
  StronglySorted lt (fetch_log n (init stage_names store instructions bp))
  ∧ NoDup (fetch_log n (init stage_names store instructions bp))
  ∧ (k ∈ fetch_log n (init stage_names store instructions bp)
     ↔ stall_needed sk = false ∧ instr_queue sk ≠ [])
  ∧ ∀ idx instr, fetched sk = Some (idx, instr) → idx = k.
Proof.
  intros Hk Hrun Hstep.
  set (s0 := init stage_names store instructions bp) in *.
  assert (reachable s0) as Hs0 by constructor.
  destruct (fetch_log_sorted n s0 Hs0) as [Hsorted _].
  split; [done|]. split; [by apply sorted_lt_NoDup|].
  assert (reachable sk) as Hsk by (by eapply reachable_run).
  pose proof (run_timeline k s0 sk Hs0 Hrun) as Hlen. simpl in Hlen.
  pose proof (fetch_log_mem n s0 k sk sk' Hs0 Hk Hrun Hstep) as Hmem.
  simpl in Hmem. split.
  - rewrite Hmem. unfold fetched.
    destruct (stall_needed sk); [split; [by intros [? ?]|by intros [? _]]|].
    destruct (instr_queue sk) as [|a q].
    + split; [by intros [? ?]|by intros [_ ?]].
    + split; [done|by eauto].
  - intros idx instr Hf. destruct (step_timeline sk sk' Hsk Hstep) as [_ Hidx].
    rewrite (Hidx idx instr Hf). lia.
Qed.

End Indices.

(** C4 at the sample program, fourth call: the stall cycle gives no index. *)
Lemma C4_witness :
  let s0 := main_pipeline false in
  let sk := (run 3 s0).2 in
  StronglySorted lt (fetch_log 12 s0)
  ∧ NoDup (fetch_log 12 s0)
  ∧ (3 ∈ fetch_log 12 s0 ↔ stall_needed sk = false ∧ instr_queue sk ≠ [])
  ∧ ∀ idx instr, fetched sk = Some (idx, instr) → idx = 3.
Proof.
  intros s0 sk.
  apply (C4_indices main_stages (store_of sample_program) [0; 1; 2; 3; 4]
           (static_not_taken (λ _, false)) 12 3 sk (step sk).2).
  - lia.
  - vm_compute; reflexivity.
  - vm_compute; reflexivity.
Defined.

(** C4 as stated fails: the sample program, with every branch outcome equal
    to its prediction, runs to completion without a single squash, and the
    indices 3 and 5 are given to no instruction: the fourth and the sixth
    cycle stall. *)
Lemma C4_counterexample :
  let s0 := main_pipeline false in
  fetch_log 12 s0 = [0; 1; 2; 4; 6]
  ∧ is_done (run 12 s0).2 = true
  ∧ flushed (run 12 s0).2 = 0
  ∧ stall_needed (run 3 s0).2 = true
  ∧ stall_needed (run 5 s0).2 = true.
Proof. vm_compute. done. Qed.

(** ** Determinism *)

Section Determinism.

Context {P : Type} `{BranchPredictor P}.

Implicit Types s : Pipeline P.

(** The answers of the predictor are functions of the instruction alone. *)
Variables f g : Instruction → bool.
Hypothesis predict_det : ∀ p i, (predict p i).1 = f i.
Hypothesis actual_outcome_det : ∀ p i, (actual_outcome p i).1 = g i.

Lemma agree_ret {A} (a : A) : agree P (ret a).
Proof. by intros s1 s2 Hs. Qed.

Lemma agree_bind {A B} (m : M A) (k : A → M B) :
  agree P m → (∀ a, agree P (k a)) → agree P (bind m k).
Proof.
  intros Hm Hk s1 s2 Hs. unfold bind.
  destruct (Hm s1 s2 Hs) as [Hr Hs'].
  destruct (m s1) as [[a1|e1] s1'], (m s2) as [[a2|e2] s2']; simpl in *;
    simplify_eq; [by apply Hk|done].
Qed.

Lemma agree_gets {A} (h : Pipeline P → A) :
  (∀ s1 s2, sim s1 s2 → h s1 = h s2) → agree P (gets h).
Proof. intros Hh s1 s2 Hs. unfold gets; simpl. by rewrite (Hh s1 s2). Qed.

Lemma agree_modify (h : Pipeline P → Pipeline P) :
  (∀ s1 s2, sim s1 s2 → sim (h s1) (h s2)) → agree P (modify h).
Proof. intros Hh s1 s2 Hs. unfold modify; simpl. auto. Qed.

Ltac sim_fields :=
  let Hs := fresh in
  intros ? ? Hs; unfold sim in *; simpl;
  destruct Hs as (?&?&?&?&?&?&?&?); repeat split; congruence.

Lemma agree_reg_load i : agree P (reg_load i).
Proof.
  intros s1 s2 Hs. unfold reg_load.
  destruct Hs as (?&?&Hr&?&?&?&?&?). rewrite Hr.
  destruct (pipeline_regs s2 !! i); simpl; unfold sim; repeat split; done.
Qed.

Lemma agree_reg_store i e : agree P (reg_store i e).
Proof.
  intros s1 s2 Hs. unfold reg_store.
  destruct Hs as (?&?&Hr&?&?&?&?&?). rewrite Hr.
  case_decide; simpl; unfold sim; repeat split; done.
Qed.

Lemma agree_deref a : agree P (deref a).
Proof. apply agree_gets. by intros s1 s2 (?&?&?&?&?&?&?&->). Qed.

Lemma agree_call_predict a : agree P (call_predict a).
Proof.
  intros s1 s2 Hs. unfold call_predict.
  destruct Hs as (?&?&?&?&?&?&?&Ho). rewrite Ho.
  pose proof (predict_det (branch_predictor s1) (objs s2 a)) as E1.
  pose proof (predict_det (branch_predictor s2) (objs s2 a)) as E2.
  destruct (predict (branch_predictor s1) _), (predict (branch_predictor s2) _).
  simpl in *. subst. unfold sim. repeat split; done.
Qed.

Lemma agree_call_actual_outcome a : agree P (call_actual_outcome a).
Proof.
  intros s1 s2 Hs. unfold call_actual_outcome.
  destruct Hs as (?&?&?&?&?&?&?&Ho). rewrite Ho.
  pose proof (actual_outcome_det (branch_predictor s1) (objs s2 a)) as E1.
  pose proof (actual_outcome_det (branch_predictor s2) (objs s2 a)) as E2.
  destruct (actual_outcome (branch_predictor s1) _),
    (actual_outcome (branch_predictor s2) _).
  simpl in *. subst. unfold sim. repeat split; done.
Qed.

Create HintDb agree discriminated.

#[local] Hint Resolve agree_ret agree_reg_load agree_reg_store agree_deref
  agree_call_predict agree_call_actual_outcome : agree.

Ltac agree_step :=
  first
    [ solve [auto with agree]
    | apply agree_bind; [|intros ?]
    | apply agree_modify; sim_fields
    | apply agree_gets; sim_fields ].

Lemma agree_hazard_check id_instr ex_instr b :
  agree P (hazard_check id_instr ex_instr b).
Proof.
  unfold hazard_check.
  destruct id_instr as [[? ?]|], ex_instr as [[? ?]|]; repeat agree_step.
Qed.

Lemma agree_predict_block id_instr ev : agree P (predict_block id_instr ev).
Proof.
  unfold predict_block. destruct id_instr as [[idx ia]|]; [|agree_step].
  agree_step; [agree_step|]. case_match; repeat agree_step.
Qed.

Lemma agree_shift_block b ev : agree P (shift_block b ev).
Proof.
  unfold shift_block. destruct b; repeat agree_step.
  case_match; repeat agree_step.
Qed.

Lemma agree_squash i : agree P (squash i).
Proof. unfold squash. agree_step; [agree_step|]. case_match; agree_step. Qed.

#[local] Hint Resolve agree_hazard_check agree_predict_block agree_shift_block
  agree_squash : agree.

Lemma agree_resolve_block ev : agree P (resolve_block ev).
Proof. unfold resolve_block. repeat first [agree_step | case_match]. Qed.

Lemma agree_snapshot range : ∀ ev, agree P (snapshot range ev).
Proof.
  induction range as [|i range IH]; intros ev; simpl; [agree_step|].
  agree_step; [agree_step|]. agree_step; [|apply IH].
  repeat case_match; repeat agree_step.
Qed.

#[local] Hint Resolve agree_resolve_block agree_snapshot : agree.

Lemma agree_step_fn : agree P step.
Proof.
  unfold step, step_front, step_back, notify.
  repeat agree_step.
Qed.

Lemma agree_run n : agree P (run n).
Proof.
  induction n as [|n IH]; simpl; [agree_step|].
  apply agree_bind; [apply agree_step_fn|done].
Qed.

(** C8. With a predictor whose [predict] and [actual_outcome] answer as
    functions of the instruction, two runs from the same stage list, the
    same instruction objects and the same backlog produce the same timeline
    after any number of calls, whatever the states of their predictors; they
    also end alike (both return, or both raise). *)
Theorem C8_deterministic_timeline (stage_names : list string)
    (store : addr → Instruction) (instructions : list addr) (p1 p2 : P)
    (n : nat) :
  timeline (run n (init stage_names store instructions p1)).2
  = timeline (run n (init stage_names store instructions p2)).2
  ∧ (run n (init stage_names store instructions p1)).1
    = (run n (init stage_names store instructions p2)).1.
Proof.
  destruct (agree_run n (init stage_names store instructions p1)
              (init stage_names store instructions p2))
    as [Hr (_&_&_&_&_&_&Htl&_)]; [by unfold sim; repeat split|done].
Qed.

End Determinism.

(** C8 at the sample program, with two counting predictors that start from
    different counts. *)
Lemma C8_witness :
  timeline (run 12 (init main_stages (store_of sample_program) [0; 1; 2; 3; 4]
                      (mkCounting 0))).2
  = timeline (run 12 (init main_stages (store_of sample_program) [0; 1; 2; 3; 4]
                        (mkCounting 7))).2
  ∧ (run 12 (init main_stages (store_of sample_program) [0; 1; 2; 3; 4]
               (mkCounting 0))).1
    = (run 12 (init main_stages (store_of sample_program) [0; 1; 2; 3; 4]
                 (mkCounting 7))).1.
Proof.
  apply (C8_deterministic_timeline (λ _, false) is_branch).
  - intros p i. reflexivity.
  - intros p i. reflexivity.
Defined.

(** The two runs of C8 start from instruction objects in the same state.
    An engine built on the objects an earlier run has used finds
    [predicted_taken] set on the branch and records no prediction event for
    it, so its timeline is another one. *)
Lemma rerun_on_used_objects :
  let s1 := init main_stages (store_of sample_program) [0; 1; 2; 3; 4]
              (mkCounting 0) in
  let s2 := init main_stages (objs (run 12 s1).2) [0; 1; 2; 3; 4]
              (mkCounting 0) in
  dict_get (pred_key 2) (nth 5 (timeline (run 12 s1).2) []) = Some "PRED:N"
  ∧ dict_get (pred_key 2) (nth 5 (timeline (run 12 s2).2) []) = None.
Proof. vm_compute. done. Qed.

(** ** The once-only fields *)

Section Objects.

Context {P : Type} `{BranchPredictor P}.

Implicit Types s : Pipeline P.

Ltac unfold_m :=
  unfold hazard_check, predict_block, shift_block, resolve_block, squash,
    bind, ret, gets, modify, reg_load, reg_store, deref, call_predict,
    call_actual_outcome, notify, with_cycle, with_stalls, with_flushed, with_queue,
    with_regs, with_predictor, with_timeline, with_objs.

Ltac obj_cases a :=
  repeat match goal with
  | |- context [<[?ia := _]> _ a] =>
      destruct (decide (a = ia));
        [subst; rewrite fn_lookup_insert
        |rewrite fn_lookup_insert_ne by done]
  end;
  repeat match goal with
  | H : _ && _ = true |- _ => apply andb_true_iff in H as [? ?]
  | H : bool_decide _ = true |- _ => apply bool_decide_eq_true in H
  end;
  simpl; unfold same_static;
  repeat (split; [done|]);
  first [ by left | right; repeat (split; [done|]); by eexists ].

(** The first half of [step] writes to one field of one object at most:
    [predicted_taken] of the branch in register 1, when it is still unset. *)
Lemma step_front_objs s r0 r1 r2 r3 r4 rest fr s1 :
  pipeline_regs s = r0 :: r1 :: r2 :: r3 :: r4 :: rest →
  step_front s = (Val fr, s1) →
  ∀ a, same_static (objs s1 a) (objs s a)
       ∧ actual_taken (objs s1 a) = actual_taken (objs s a)
       ∧ (predicted_taken (objs s1 a) = predicted_taken (objs s a)
          ∨ (is_branch (objs s a) = true
             ∧ predicted_taken (objs s a) = None
             ∧ ∃ idx, r1 = Some (idx, a))).
Proof.
  destruct s as [st q regs c stl fl bp tl ob]; simpl. intros -> Hfr a.
  revert Hfr. unfold step_front; unfold_m; simpl.
  repeat (case_match; simplify_eq/=); intros Hfr; simplify_eq/=.
  all: obj_cases a.
Qed.

(** The branch resolution writes to one field of one object at most:
    [actual_taken] of the branch in register 2. *)
Lemma resolve_block_objs s ev ev' s' x0 x1 x2 rest :
  pipeline_regs s = x0 :: x1 :: x2 :: rest →
  resolve_block ev s = (Val ev', s') →
  ∀ a, same_static (objs s' a) (objs s a)
       ∧ predicted_taken (objs s' a) = predicted_taken (objs s a)
       ∧ (actual_taken (objs s' a) = actual_taken (objs s a)
          ∨ (is_branch (objs s a) = true ∧ ∃ idx, x2 = Some (idx, a))).
Proof.
  destruct s as [st q regs c stl fl bp tl ob]; simpl. intros -> Hres a.
  revert Hres. unfold_m; simpl.
  repeat (case_match; simplify_eq/=); intros Hres; simplify_eq/=.
  all: obj_cases a.
Qed.

Lemma step_back_objs s n ev s' x0 x1 x2 rest :
  pipeline_regs s = x0 :: x1 :: x2 :: rest →
  n ≤ length (pipeline_regs s) →
  step_back n ev s = (Val tt, s') →
  ∀ a, same_static (objs s' a) (objs s a)
       ∧ predicted_taken (objs s' a) = predicted_taken (objs s a)
       ∧ (actual_taken (objs s' a) = actual_taken (objs s a)
          ∨ (is_branch (objs s a) = true ∧ ∃ idx, x2 = Some (idx, a))).
Proof.
  intros Hr Hn Hbk.
  destruct (resolve_block_spec s ev _ _ _ _ Hr)
    as (ev' & s1 & Hres & _ & _ & _ & _ & _ & _ & _ & Hcase).
  assert (n ≤ length (pipeline_regs s1)) as Hn1.
  { destruct Hcase as [(_ & _ & -> & _)|(_ & _ & -> & _)]; [|done].
    rewrite Hr in Hn. simpl in *. lia. }
  revert Hbk. unfold step_back, bind.
  rewrite Hres, (snapshot_seq _ _ _ Hn1).
  unfold modify, notify, ret, with_timeline; simpl. intros Hbk.
  simplify_eq/=. by eapply resolve_block_objs.
Qed.

(** What a call of [step] does to the objects: the unchanging fields stay,
    [predicted_taken] is written only where it was unset, on the branch in
    register 1, and [actual_taken] is written only on the branch that a
    normal cycle moves from register 1 to register 2. *)
Lemma step_objs s s' :
  reachable s → step s = (Val tt, s') →
  ∀ a, same_static (objs s' a) (objs s a)
       ∧ (predicted_taken (objs s' a) = predicted_taken (objs s a)
          ∨ (is_branch (objs s a) = true
             ∧ predicted_taken (objs s a) = None
             ∧ ∃ idx, pipeline_regs s !! 1 = Some (Some (idx, a))))
       ∧ (actual_taken (objs s' a) = actual_taken (objs s a)
          ∨ (is_branch (objs s a) = true
             ∧ stall_needed s = false
             ∧ ∃ idx, pipeline_regs s !! 1 = Some (Some (idx, a)))).
Proof.
  intros Hs Hstep a.
  pose proof (step_val_long _ _ Hstep) as Hlong.
  destruct (reachable_inv _ Hs) as [Hlen _ _ _].
  destruct (reachable_shape _ Hs ltac:(lia))
    as (r0 & r1 & r2 & r3 & r4 & rest & Hregs & Hn).
  destruct (step_front_spec s _ _ _ _ _ _ Hregs)
    as (ev & s1 & Hfr & _ & _ & _ & _ & _ & Hcase).
  rewrite step_unfold, Hfr in Hstep. simpl in Hstep.
  destruct (step_front_objs s _ _ _ _ _ _ _ _ Hregs Hfr a)
    as ((Hn1 & Hrd1 & Hw1 & Hb1) & Ha1 & Hp1).
  assert (∃ x0 x1 x2 rest',
    pipeline_regs s1 = x0 :: x1 :: x2 :: rest'
    ∧ length (pipeline_regs s1) = length (pipeline_regs s)
    ∧ (x2 = None ∧ stall_needed s = true
       ∨ x2 = r1 ∧ stall_needed s = false))
    as (x0 & x1 & x2 & rest' & Hregs1 & Hlen1 & Hx2).
  { destruct Hcase as [(? & _ & _ & -> & _)|(? & _ & _ & -> & _)];
      rewrite Hregs; eauto 12. }
  assert (length (stages s) ≤ length (pipeline_regs s1)) as Hn1' by lia.
  destruct (step_back_objs s1 _ _ _ _ _ _ _ Hregs1 Hn1' Hstep a)
    as ((Hn2 & Hrd2 & Hw2 & Hb2) & Hp2 & Ha2).
  split; [unfold same_static; repeat split; congruence|]. split.
  - destruct Hp1 as [Hp1|(? & ? & idx & ->)]; [left; congruence|].
    right. rewrite Hregs. eauto.
  - destruct Ha2 as [Ha2|(Hbr & idx & ->)]; [left; congruence|].
    destruct Hx2 as [[? _]|[<- Hst]]; [done|].
    right. rewrite Hregs. split; [congruence|]. eauto.
Qed.

End Objects.

Section Once_only.

Context {P : Type} `{BranchPredictor P}.

Implicit Types s : Pipeline P.

Lemma front_step s s' :
  reachable s → step s = (Val tt, s') →
  (stall_needed s = true ∧ front s' = front s)
  ∨ (stall_needed s = false
     ∧ ∃ dropped, front s' ++ dropped ++ slot_addr (slot_at s 1) ≡ₚ front s).
Proof.
  intros Hs Hstep.
  pose proof (step_val_long _ _ Hstep) as Hlong.
  destruct (reachable_inv _ Hs) as [Hlen _ _ _].
  destruct (reachable_shape _ Hs ltac:(lia))
    as (r0 & r1 & r2 & r3 & r4 & rest & Hregs & Hn).
  destruct (step_spec s _ _ _ _ _ _ Hregs Hn)
    as (rec & s1 & Hstep' & _ & _ & _ & Hcase).
  assert (s1 = s') as -> by congruence.
  unfold front, slot_at.
  destruct Hcase as [(Hst & _ & _ & -> & -> & _)
                    |(Hst & _ & -> & _ & [(_ & -> & _)|(_ & -> & _)])];
    rewrite Hregs; simpl.
  - by left.
  - right. split; [done|].
    exists (slot_addr r0 ++ match instr_queue s with
                            | a :: _ => [a] | [] => [] end).
    destruct (instr_queue s) as [|a q]; simpl; solve_Permutation.
  - right. split; [done|]. exists []. unfold refill.
    destruct (instr_queue s) as [|a q]; simpl; solve_Permutation.
Qed.

Lemma unshared_step s s' :
  reachable s → unshared s → step s = (Val tt, s') →
  unshared s'
  ∧ ∀ a b, actual_taken (objs s a) = Some b →
           actual_taken (objs s' a) = Some b.
Proof.
  intros Hs [Hnd Hnone] Hstep.
  pose proof (step_objs s s' Hs Hstep) as Hobjs.
  assert (∀ a, actual_taken (objs s' a) ≠ actual_taken (objs s a) →
               stall_needed s = false ∧ a ∈ slot_addr (slot_at s 1)) as Hch.
  { intros a Hne. destruct (Hobjs a) as (_ & _ & [?|(_ & ? & idx & Hr1)]);
      [done|]. split; [done|]. unfold slot_at. rewrite Hr1. left. }
  assert (∀ a, a ∈ slot_addr (slot_at s 1) → a ∈ front s) as Hin1.
  { intros a Ha. unfold front. rewrite !elem_of_app. auto. }
  split; [|].
  - destruct (front_step s s' Hs Hstep) as [[Hst Hfr]|[Hst [dropped Hperm]]].
    + unfold unshared. rewrite Hfr. split; [done|]. intros a Ha.
      destruct (decide (actual_taken (objs s' a) = actual_taken (objs s a)))
        as [->|Hne]; [by apply Hnone|].
      destruct (Hch a Hne). congruence.
    + rewrite <- Hperm in Hnd. apply NoDup_app in Hnd as (Hnd' & Hdisj & _).
      split; [done|]. intros a Ha.
      destruct (decide (actual_taken (objs s' a) = actual_taken (objs s a)))
        as [->|Hne].
      * apply Hnone. rewrite <- Hperm. apply elem_of_app. by left.
      * destruct (Hch a Hne) as [_ Ha1]. exfalso.
        apply (Hdisj a Ha). apply elem_of_app. by right.
  - intros a b Hb.
    destruct (decide (actual_taken (objs s' a) = actual_taken (objs s a)))
      as [->|Hne]; [done|].
    destruct (Hch a Hne) as [_ Ha1]. rewrite (Hnone a) in Hb; [done|auto].
Qed.

Lemma unshared_run n : ∀ s s',
  reachable s → unshared s → run n s = (Val tt, s') → unshared s'.
Proof.
  induction n as [|n IH]; intros s s' Hs Hun Hrun; simpl in Hrun.
  - unfold ret in Hrun. by simplify_eq.
  - unfold bind in Hrun. destruct (step s) as [[[]|e] s1] eqn:E; [|done].
    eapply (IH s1); [by eapply reach_step| |done].
    by destruct (unshared_step s s1 Hs Hun E).
Qed.

(** The once-only fields, where the code keeps them.  In every call of
    [step]: the prediction fields of a non-branch are never written; a
    [predicted_taken] that is set is never changed; and when the program
    holds no instruction object twice and the objects come unresolved, an
    [actual_taken] that is set is never changed either. *)
Lemma once_only_without_sharing (stage_names : list string)
    (store : addr → Instruction) (instructions : list addr) (bp : P)
    (n : nat) (s s' : Pipeline P) (a : addr) :
  run n (init stage_names store instructions bp) = (Val tt, s) →
  step s = (Val tt, s') →
  (is_branch (objs s a) = false →
   predicted_taken (objs s' a) = predicted_taken (objs s a)
   ∧ actual_taken (objs s' a) = actual_taken (objs s a))
  ∧ (∀ b, predicted_taken (objs s a) = Some b →
          predicted_taken (objs s' a) = Some b)
  ∧ (NoDup instructions →
     (∀ x, x ∈ instructions → actual_taken (store x) = None) →
     ∀ b, actual_taken (objs s a) = Some b →
          actual_taken (objs s' a) = Some b).
Proof.
  intros Hrun Hstep.
  set (s0 := init stage_names store instructions bp) in *.
  assert (reachable s0) as Hs0 by constructor.
  assert (reachable s) as Hs by (by eapply reachable_run).
  destruct (step_objs s s' Hs Hstep a) as (_ & Hp & Ha).
  split; [|split].
  - intros Hnb. split.
    + destruct Hp as [?|(? & _)]; [done|congruence].
    + destruct Ha as [?|(? & _)]; [done|congruence].
  - intros b Hb. destruct Hp as [->|(_ & ? & _)]; [done|congruence].
  - intros Hnd Hfresh b Hb.
    assert (unshared s0) as Hun0.
    { unfold unshared, front, slot_at, s0. simpl.
      assert (∀ i, match replicate (length stage_names) (None : slot) !! i with
                   | Some e => e | None => None end = None) as Hrep.
      { intros i. destruct (_ !! i) as [e|] eqn:E; [|done].
        by apply lookup_replicate in E as [-> _]. }
      rewrite !Hrep. simpl. rewrite app_nil_r. done. }
    pose proof (unshared_run n s0 s Hs0 Hun0 Hrun) as Hun.
    destruct (unshared_step s s' Hs Hun Hstep) as [_ Honce]. by apply Honce.
Qed.

End Once_only.

(** C6 fails on the code.  [predict] is guarded by
    [predicted_taken is None], the resolution of lines 90-92 has no such
    guard: the shared branch object is resolved in the third cycle
    ([actual_taken = False], a correct prediction, so nothing is squashed)
    and again in the fourth, which overwrites [actual_taken] with [True] and
    reports a misprediction for the second occurrence. *)
Theorem C6_shared_branch_resolved_twice :
  let s0 := shared_pipeline in
  (run 4 s0).1 = Val tt
  ∧ actual_taken (objs (run 2 s0).2 0) = None
  ∧ actual_taken (objs (run 3 s0).2 0) = Some false
  ∧ actual_taken (objs (run 4 s0).2 0) = Some true
  ∧ predicted_taken (objs (run 3 s0).2 0) = Some false
  ∧ predicted_taken (objs (run 4 s0).2 0) = Some false
  ∧ dict_get (branch_key 0) (nth 2 (timeline (run 4 s0).2) [])
    = Some "PRED_CORRECT"
  ∧ dict_get (branch_key 1) (nth 3 (timeline (run 4 s0).2) [])
    = Some "MISPREDICT".
Proof. vm_compute. done. Qed.

(** ** Further properties of the engine *)

(** [detect_data_hazard] answers [True] exactly when there is an earlier
    instruction and some register identifier that is truthy (not [None],
    not the empty string) is read by the instruction and written by the
    earlier one. *)
Theorem detect_data_hazard_spec (instr : Instruction)
    (earlier_instr : option Instruction) :
  detect_data_hazard instr earlier_instr = true
  ↔ ∃ e r, earlier_instr = Some e
           ∧ r ∈ reads instr ∧ truthy r = true ∧ r ∈ writes e.
Proof.
  destruct earlier_instr as [e|]; simpl.
  - rewrite hazard_loop_true. split.
    + intros (r & ? & ? & ?). by exists e, r.
    + intros (e' & r & ? & ? & ? & ?). simplify_eq. by exists r.
  - split; [done|]. by intros (e & r & ? & _).
Qed.

Section Trace.

Context {P : Type} `{BranchPredictor P}.

Implicit Types s : Pipeline P.

(** The counters and the event record of a cycle go together: [stalls]
    grows, by one, exactly in a cycle whose record holds the stall event of
    that cycle, and [flushed] grows, by one, exactly in a cycle whose record
    holds a misprediction; otherwise they keep their values. *)
Theorem counters_match_record s s' :
  reachable s → step s = (Val tt, s') →
  ∃ rec,
    timeline s' = timeline s ++ [rec]
    ∧ ((stalls s' = stalls s + 1
        ∧ dict_get (stall_key (cycle s')) rec = Some "DATA_STALL")
       ∨ (stalls s' = stalls s ∧ ∀ c, dict_get (stall_key c) rec = None))
    ∧ ((flushed s' = flushed s + 1
        ∧ ∃ idx, dict_get (branch_key idx) rec = Some "MISPREDICT")
       ∨ (flushed s' = flushed s
          ∧ ∀ idx, dict_get (branch_key idx) rec ≠ Some "MISPREDICT")).
Proof.
  intros Hs Hstep.
  pose proof (step_val_long _ _ Hstep) as Hlong.
  destruct (reachable_inv _ Hs) as [Hlen _ _ _].
  destruct (reachable_shape _ Hs ltac:(lia))
    as (r0 & r1 & r2 & r3 & r4 & rest & Hregs & Hn).
  destruct (step_spec s _ _ _ _ _ _ Hregs Hn)
    as (rec & s1 & Hstep' & _ & Hc & Htl & Hcase).
  assert (s1 = s') as -> by congruence.
  exists rec. split; [done|].
  destruct Hcase as [(_ & Hstl & Hfl & _ & _ & Hev & Hnb)
                    |(_ & Hstl & _ & Hns & Hcase)].
  - split; [left; by rewrite Hc|]. right. split; [done|].
    intros idx. by rewrite Hnb.
  - split; [by right|].
    destruct Hcase as [(Hfl & _ & idx & a & _ & Hev)|(Hfl & _ & Hno)].
    + left. eauto.
    + by right.
Qed.

(** A stall costs one cycle: the call after a stalled one never stalls,
    because the stall path leaves register 2 empty. *)
Theorem no_two_stalls_in_a_row s s' :
  reachable s → step s = (Val tt, s') →
  stall_needed s = true → stall_needed s' = false.
Proof.
  intros Hs Hstep Hst.
  pose proof (step_val_long _ _ Hstep) as Hlong.
  destruct (reachable_inv _ Hs) as [Hlen _ _ _].
  destruct (reachable_shape _ Hs ltac:(lia))
    as (r0 & r1 & r2 & r3 & r4 & rest & Hregs & Hn).
  destruct (step_spec s _ _ _ _ _ _ Hregs Hn)
    as (rec & s1 & Hstep' & _ & _ & _ & Hcase).
  assert (s1 = s') as -> by congruence.
  destruct Hcase as [(_ & _ & _ & _ & Hr' & _)|(Hno & _)]; [|congruence].
  unfold stall_needed, slot_at. rewrite Hr'. simpl. by destruct r1 as [[? ?]|].
Qed.

End Trace.

(** The fourth cycle of the sample program stalls. *)
Lemma counters_match_record_witness :
  let s := (run 3 (main_pipeline false)).2 in
  let s' := (step s).2 in
  ∃ rec,
    timeline s' = timeline s ++ [rec]
    ∧ ((stalls s' = stalls s + 1
        ∧ dict_get (stall_key (cycle s')) rec = Some "DATA_STALL")
       ∨ (stalls s' = stalls s ∧ ∀ c, dict_get (stall_key c) rec = None))
    ∧ ((flushed s' = flushed s + 1
        ∧ ∃ idx, dict_get (branch_key idx) rec = Some "MISPREDICT")
       ∨ (flushed s' = flushed s
          ∧ ∀ idx, dict_get (branch_key idx) rec ≠ Some "MISPREDICT")).
Proof.
  intros s s'. apply (counters_match_record s s').
  - apply (reachable_run 3 (main_pipeline false));
      [constructor|vm_compute; reflexivity].
  - vm_compute; reflexivity.
Defined.

Lemma no_two_stalls_in_a_row_witness :
  let s := (run 3 (main_pipeline false)).2 in
  stall_needed (step s).2 = false.
Proof.
  intros s. apply (no_two_stalls_in_a_row s (step s).2).
  - apply (reachable_run 3 (main_pipeline false));
      [constructor|vm_compute; reflexivity].
  - vm_compute; reflexivity.
  - vm_compute; reflexivity.
Defined.


Section Counters.

Context {P : Type} `{BranchPredictor P}.

Implicit Types s : Pipeline P.

(** No cycle both stalls and flushes, and no two cycles in a row stall: at
    every point of a run the stalls and the flushes together number at most
    the cycles, and the stalls at most half of the cycles, rounded up. *)
Theorem counters_bounded s :
  reachable s →
  stalls s + flushed s ≤ cycle s ∧ 2 * stalls s ≤ cycle s + 1.
Proof.
  intros Hs.
  assert (stalls s + flushed s ≤ cycle s ∧ 2 * stalls s ≤ cycle s + 1
          ∧ (occupied (slot_at s 2) = true → 2 * stalls s ≤ cycle s))
    as (? & ? & _); [|done].
  induction Hs as [stage_names store instructions bp|s s' Hs IH Hstep].
  - simpl. repeat split; lia.
  - destruct IH as (Hsum & Hhalf & Hocc).
    pose proof (step_val_long _ _ Hstep) as Hlong.
    destruct (reachable_inv _ Hs) as [Hlen _ _ _].
    destruct (reachable_shape _ Hs ltac:(lia))
      as (r0 & r1 & r2 & r3 & r4 & rest & Hregs & Hn).
    destruct (step_spec s _ _ _ _ _ _ Hregs Hn)
      as (rec & s1 & Hstep' & _ & Hc & _ & Hcase).
    assert (s1 = s') as -> by congruence.
    destruct Hcase as [(Hst & Hstl & Hfl & _ & Hr' & _)
                      |(_ & Hstl & _ & _ & [(Hfl & _)|(Hfl & _)])].
    + assert (occupied (slot_at s 2) = true) as Ho.
      { unfold stall_needed, slot_at in *. rewrite Hregs in *. simpl in *.
        destruct r1 as [[? ?]|]; [|done]. by destruct r2. }
      specialize (Hocc Ho).
      unfold slot_at. rewrite Hr'. simpl. repeat split; [lia|lia|done].
    + repeat split; lia.
    + repeat split; lia.
Qed.

End Counters.

(** After the twelve cycles of the sample program: two stalls, one
    flush. *)
Lemma counters_bounded_witness :
  let s := (run 12 (main_pipeline true)).2 in
  stalls s + flushed s ≤ cycle s ∧ 2 * stalls s ≤ cycle s + 1.
Proof.
  intros s. apply (counters_bounded s).
  apply (reachable_run 12 (main_pipeline true));
    [constructor|vm_compute; reflexivity].
Defined.

(** The once-only fields at the seventh cycle of the sample program, for the
    branch [I3]. *)
Lemma once_only_without_sharing_witness :
  let s := (run 6 (main_pipeline true)).2 in
  let s' := (step s).2 in
  (is_branch (objs s 2) = false →
   predicted_taken (objs s' 2) = predicted_taken (objs s 2)
   ∧ actual_taken (objs s' 2) = actual_taken (objs s 2))
  ∧ (∀ b, predicted_taken (objs s 2) = Some b →
          predicted_taken (objs s' 2) = Some b)
  ∧ (NoDup [0; 1; 2; 3; 4] →
     (∀ x, x ∈ [0; 1; 2; 3; 4] →
           actual_taken (store_of sample_program x) = None) →
     ∀ b, actual_taken (objs s 2) = Some b →
          actual_taken (objs s' 2) = Some b).
Proof.
  intros s s'.
  apply (once_only_without_sharing main_stages (store_of sample_program)
           [0; 1; 2; 3; 4] (static_not_taken (λ _, true)) 6 s s' 2).
  - vm_compute; reflexivity.
  - vm_compute; reflexivity.
Defined.

Section Resolution.

Context {P : Type} `{BranchPredictor P}.

Implicit Types s : Pipeline P.

Ltac unfold_m :=
  unfold hazard_check, predict_block, shift_block, resolve_block, squash,
    bind, ret, gets, modify, reg_load, reg_store, deref, call_predict,
    call_actual_outcome, notify, with_cycle, with_stalls, with_flushed, with_queue,
    with_regs, with_predictor, with_timeline, with_objs.

Lemma snapshot_events_get s range : ∀ ev j,
  dict_get (stage_key j) (snapshot_events s range ev)
  = if decide (j ∈ range) then Some (status_of s (slot_at s j))
    else dict_get (stage_key j) ev.
Proof.
  induction range as [|i range IH]; intros ev j; simpl.
  - destruct (decide (j ∈ [])) as [Hj|_]; [by apply elem_of_nil in Hj|done].
  - rewrite IH, dict_get_set.
    destruct (decide (j ∈ range)) as [Hin|Hnin];
      destruct (decide (j ∈ i :: range)) as [Hin'|Hnin'].
    + done.
    + exfalso. apply Hnin'. by right.
    + apply elem_of_cons in Hin' as [->|?]; [|done].
      destruct (decide (stage_key i = stage_key i)); done.
    + destruct (decide (stage_key i = stage_key j)) as [E|_]; [|done].
      unfold stage_key in E. simplify_eq. exfalso. apply Hnin'. left.
Qed.

(** The second half of [step], with the state the snapshot loop reads. *)
Lemma step_back_exact s n ev x0 x1 x2 rest :
  pipeline_regs s = x0 :: x1 :: x2 :: rest →
  n ≤ length (pipeline_regs s) →
  ∃ ev' s2,
    resolve_block ev s = (Val ev', s2)
    ∧ step_back n ev s
      = (Val tt,
         with_timeline (timeline s2 ++ [snapshot_events s2 (seq 0 n) ev']) s2).
Proof.
  intros Hr Hn.
  destruct (resolve_block_spec s ev _ _ _ _ Hr)
    as (ev' & s1 & Hres & _ & _ & _ & _ & _ & _ & _ & Hcase).
  assert (n ≤ length (pipeline_regs s1)) as Hn1.
  { destruct Hcase as [(_ & _ & -> & _)|(_ & _ & -> & _)]; [|done].
    rewrite Hr in Hn. simpl in *. lia. }
  exists ev', s1. split; [done|].
  unfold step_back, bind. by rewrite Hres, (snapshot_seq _ _ _ Hn1).
Qed.

(** What the prediction of lines 66-68 leaves behind. *)
Lemma step_front_predicts s r0 r1 r2 r3 r4 rest fr s1 :
  pipeline_regs s = r0 :: r1 :: r2 :: r3 :: r4 :: rest →
  step_front s = (Val fr, s1) →
  match r1 with
  | Some (idx, ia) =>
      if is_branch (objs s ia)
         && bool_decide (predicted_taken (objs s ia) = None)
      then dict_get (pred_key idx) fr.2
           = Some ("PRED:" +:+
                   (if (predict (branch_predictor s) (objs s ia)).1
                    then "T" else "N"))
           ∧ predicted_taken (objs s1 ia)
             = Some (predict (branch_predictor s) (objs s ia)).1
           ∧ branch_predictor s1
             = (predict (branch_predictor s) (objs s ia)).2
      else (∀ i, dict_get (pred_key i) fr.2 = None)
           ∧ objs s1 = objs s
           ∧ branch_predictor s1 = branch_predictor s
  | None =>
      (∀ i, dict_get (pred_key i) fr.2 = None)
      ∧ objs s1 = objs s
      ∧ branch_predictor s1 = branch_predictor s
  end.
Proof.
  destruct s as [st q regs c stl fl bp tl ob]; simpl. intros -> Hfr.
  revert Hfr. unfold step_front; unfold_m; simpl.
  repeat (case_match; simplify_eq/=); intros Hfr; simplify_eq/=.
  all: rewrite ?fn_lookup_insert in *; simpl in *.
  all: repeat split; try done; intros;
    rewrite ?dict_get_set; repeat case_decide; simplify_eq/=; done.
Qed.

(** What the resolution of lines 89-101 leaves behind for a branch in
    register 2. *)
Lemma resolve_block_sets s ev ev' s' x0 x1 idx a rest :
  pipeline_regs s = x0 :: x1 :: Some (idx, a) :: rest →
  is_branch (objs s a) = true →
  resolve_block ev s = (Val ev', s') →
  actual_taken (objs s' a)
  = Some (actual_outcome (branch_predictor s) (objs s a)).1
  ∧ branch_predictor s' = (actual_outcome (branch_predictor s) (objs s a)).2
  ∧ dict_get (branch_key idx) ev'
    = Some (if differs (predicted_taken (objs s a))
                 (actual_outcome (branch_predictor s) (objs s a)).1
            then "MISPREDICT" else "PRED_CORRECT").
Proof.
  destruct s as [st q regs c stl fl bp tl ob]; simpl. intros -> Hbr Hres.
  revert Hres. unfold_m; simpl. rewrite Hbr.
  repeat (case_match; simplify_eq/=); intros Hres; simplify_eq/=.
  all: rewrite ?fn_lookup_insert in *; simpl in *.
  all: repeat split; try done; rewrite ?dict_get_set_eq; congruence.
Qed.

(** A returning call of [step], cut at its three stations: after the stage
    shift, after the branch resolution, and at the end. *)
Lemma step_decompose s s' :
  reachable s → step s = (Val tt, s') →
  ∃ r0 r1 r2 r3 r4 rest ev s1 x0 x1 x2 rest' ev' s2,
    pipeline_regs s = r0 :: r1 :: r2 :: r3 :: r4 :: rest
    ∧ step_front s = (Val (length (stages s), ev), s1)
    ∧ pipeline_regs s1 = x0 :: x1 :: x2 :: rest'
    ∧ (stall_needed s = true ∧ x2 = None ∨ stall_needed s = false ∧ x2 = r1)
    ∧ resolve_block ev s1 = (Val ev', s2)
    ∧ stages s2 = stages s ∧ timeline s2 = timeline s
    ∧ s' = with_timeline
             (timeline s2
                ++ [snapshot_events s2 (seq 0 (length (stages s))) ev'])
             s2.
Proof.
  intros Hs Hstep.
  pose proof (step_val_long _ _ Hstep) as Hlong.
  destruct (reachable_inv _ Hs) as [Hlen _ _ _].
  destruct (reachable_shape _ Hs ltac:(lia))
    as (r0 & r1 & r2 & r3 & r4 & rest & Hregs & Hn).
  destruct (step_front_spec s _ _ _ _ _ _ Hregs)
    as (ev & s1 & Hfr & Hst & _ & Htl & _ & _ & Hcase).
  assert (∃ x0 x1 x2 rest',
    pipeline_regs s1 = x0 :: x1 :: x2 :: rest'
    ∧ length (pipeline_regs s1) = length (pipeline_regs s)
    ∧ (stall_needed s = true ∧ x2 = None
       ∨ stall_needed s = false ∧ x2 = r1))
    as (x0 & x1 & x2 & rest' & Hregs1 & Hlen1 & Hx2).
  { destruct Hcase as [(? & _ & _ & -> & _)|(? & _ & _ & -> & _)];
      rewrite Hregs; eauto 12. }
  assert (length (stages s) ≤ length (pipeline_regs s1)) as Hn1 by lia.
  destruct (step_back_exact s1 _ ev _ _ _ _ Hregs1 Hn1)
    as (ev' & s2 & Hres & Hbk).
  destruct (resolve_block_spec s1 ev _ _ _ _ Hregs1)
    as (ev'' & s2' & Hres' & Hst2 & _ & _ & _ & Htl2 & _).
  rewrite Hres in Hres'. simplify_eq.
  rewrite step_unfold, Hfr in Hstep. simpl in Hstep.
  rewrite Hbk in Hstep. simplify_eq.
  exists r0, r1, r2, r3, r4, rest, ev, s1, x0, x1, x2, rest', ev'', s2'.
  repeat (split; [done || congruence|]). done.
Qed.

(** The snapshot of a cycle shows the registers as the cycle leaves them:
    under the key of each stage the record holds the name of the instruction
    in that register after the call (squashes included), the empty string
    for an empty register; the view of [update_view] gets one more row with
    these texts, and its earlier rows stay. *)
Theorem snapshot_shows_occupants s s' :
  reachable s → step s = (Val tt, s') →
  ∃ rec,
    timeline s' = timeline s ++ [rec]
    ∧ (∀ j, j < length (stages s') →
            dict_get (stage_key j) rec = Some (status_of s' (slot_at s' j)))
    ∧ grid s'
      = grid s ++ [map (λ j, status_of s' (slot_at s' j))
                     (seq 0 (length (stages s')))].
Proof.
  intros Hs Hstep.
  destruct (step_decompose s s' Hs Hstep)
    as (r0 & r1 & r2 & r3 & r4 & rest & ev & s1 & x0 & x1 & x2 & rest'
        & ev' & s2 & Hregs & Hfr & Hregs1 & Hx2 & Hres & Hst2 & Htl2 & ->).
  eexists. simpl. rewrite Htl2, Hst2. split; [done|].
  assert (∀ j, j < length (stages s) →
    dict_get (stage_key j)
      (snapshot_events s2 (seq 0 (length (stages s))) ev')
    = Some (status_of s2 (slot_at s2 j))) as Hget.
  { intros j Hj. rewrite snapshot_events_get.
    destruct (decide (j ∈ seq 0 (length (stages s)))) as [|Hn]; [done|].
    exfalso. apply Hn. apply elem_of_seq. lia. }
  split; [done|].
  unfold grid. simpl. rewrite ?Htl2, ?Hst2, map_app. simpl. f_equal. f_equal.
  apply map_ext_in. intros j Hj. apply in_seq in Hj.
  unfold cell_text. rewrite Hget by lia. done.
Qed.

(** A branch that sits in the decode register without a prediction gets one
    in that very call, stalled or not: [predict] is asked once, its answer
    is stored in [predicted_taken] and recorded as PRED:T or PRED:N under
    the key (index, 1). *)
Theorem prediction_in_decode s idx ia :
  reachable s →
  5 ≤ length (stages s) →
  pipeline_regs s !! 1 = Some (Some (idx, ia)) →
  is_branch (objs s ia) = true →
  predicted_taken (objs s ia) = None →
  ∃ rec s',
    step s = (Val tt, s')
    ∧ timeline s' = timeline s ++ [rec]
    ∧ dict_get (pred_key idx) rec
      = Some (if (predict (branch_predictor s) (objs s ia)).1
              then "PRED:T" else "PRED:N")
    ∧ predicted_taken (objs s' ia)
      = Some (predict (branch_predictor s) (objs s ia)).1.
Proof.
  intros Hs Hlong H1 Hbr Hnone.
  destruct (reachable_shape _ Hs Hlong)
    as (r0 & r1 & r2 & r3 & r4 & rest & Hregs & Hn).
  destruct (step_spec s _ _ _ _ _ _ Hregs Hn)
    as (rec & s' & Hstep & _ & _ & Htl & _).
  destruct (step_decompose s s' Hs Hstep)
    as (r0' & r1' & r2' & r3' & r4' & rest0 & ev & s1 & x0 & x1 & x2 & rest'
        & ev' & s2 & Hregs' & Hfr & Hregs1 & Hx2 & Hres & Hst2 & Htl2 & Hs').
  rewrite Hregs in Hregs'. simplify_eq.
  rewrite Hregs in H1. simpl in H1. simplify_eq.
  pose proof (step_front_predicts _ _ _ _ _ _ _ _ _ Hregs Hfr) as Hp.
  simpl in Hp. rewrite Hbr, Hnone in Hp. simpl in Hp.
  destruct Hp as (Hev & Hpt & _).
  destruct (resolve_block_spec s1 ev _ _ _ _ Hregs1)
    as (ev'' & s2' & Hres' & _ & _ & _ & _ & _ & Hoth & _).
  rewrite Hres in Hres'. simplify_eq.
  destruct (resolve_block_objs s1 ev ev'' s2' _ _ _ _ Hregs1 Hres ia)
    as (_ & Hpt2 & _).
  eexists _, _. split; [done|]. simpl. rewrite Htl2. split; [done|]. split.
  - rewrite snapshot_events_other by done. rewrite Hoth by done.
    rewrite Hev. by destruct (predict _ _).1.
  - by rewrite Hpt2.
Qed.

(** The other outcome of the resolution.  When, after the stage shift,
    register 2 holds a branch whose resolved outcome equals its stored
    prediction, the call records PRED_CORRECT under the index of the branch
    and squashes nothing: [flushed], the registers and the backlog are as
    the shift left them. *)
Theorem correct_prediction_keeps_fetch s fr s1 idx a :
  reachable s →
  step_front s = (Val fr, s1) →
  pipeline_regs s1 !! 2 = Some (Some (idx, a)) →
  is_branch (objs s1 a) = true →
  differs (predicted_taken (objs s1 a))
    (actual_outcome (branch_predictor s1) (objs s1 a)).1 = false →
  ∃ rec s',
    step s = (Val tt, s')
    ∧ flushed s' = flushed s
    ∧ timeline s' = timeline s ++ [rec]
    ∧ dict_get (branch_key idx) rec = Some "PRED_CORRECT"
    ∧ pipeline_regs s' = pipeline_regs s1
    ∧ instr_queue s' = instr_queue s1
    ∧ actual_taken (objs s' a)
      = Some (actual_outcome (branch_predictor s1) (objs s1 a)).1.
Proof.
  intros Hs Hfr H2 Hbr Hdiff.
  assert (5 ≤ length (pipeline_regs s)) as Hlong.
  { destruct (decide (5 ≤ length (pipeline_regs s))); [done|].
    destruct (step_front_short s) as (? & ? & _); [lia|congruence]. }
  destruct (reachable_inv _ Hs) as [Hlen _ _ _].
  destruct (reachable_shape _ Hs ltac:(lia))
    as (r0 & r1 & r2 & r3 & r4 & rest & Hregs & Hn).
  destruct (step_front_spec s _ _ _ _ _ _ Hregs)
    as (ev0 & s10 & Hfr0 & _ & _ & _ & Hfl & _).
  assert (fr = (length (stages s), ev0) ∧ s1 = s10) as [-> ->]
    by (rewrite Hfr in Hfr0; by simplify_eq).
  destruct (step_spec s _ _ _ _ _ _ Hregs Hn)
    as (rec & s' & Hstep & _ & _ & Htl & _).
  destruct (step_decompose s s' Hs Hstep)
    as (r0' & r1' & r2' & r3' & r4' & rest0 & ev & s1' & x0 & x1 & x2 & rest'
        & ev' & s2 & _ & Hfr' & Hregs1 & _ & Hres & _ & Htl2 & Hs').
  assert (ev = ev0 ∧ s1' = s10) as [-> ->]
    by (rewrite Hfr0 in Hfr'; by simplify_eq).
  assert (x2 = Some (idx, a)) as ->
    by (rewrite Hregs1 in H2; by simplify_eq/=).
  destruct (resolve_block_sets s10 ev0 ev' s2 _ _ _ _ _ Hregs1 Hbr Hres)
    as (Hact & _ & Hev).
  rewrite Hdiff in Hev.
  destruct (resolve_block_spec s10 ev0 _ _ _ _ Hregs1)
    as (ev'' & s2' & Hres' & _ & _ & _ & Hq & _ & _ & _ & Hcase).
  assert (ev'' = ev' ∧ s2' = s2) as [-> ->]
    by (rewrite Hres in Hres'; by simplify_eq).
  assert (mispredicts s10 (Some (idx, a)) = false) as Hmis.
  { unfold mispredicts. by rewrite Hbr, Hdiff. }
  destruct Hcase as [(? & _)|(_ & Hfl' & Hregs' & _)]; [congruence|].
  exists (snapshot_events s2 (seq 0 (length (stages s))) ev'), s'.
  split; [done|]. rewrite Hs'. simpl.
  rewrite Htl2, Hfl', Hfl, Hregs', Hq. repeat (split; [done|]).
  split; [|done]. by rewrite snapshot_events_other.
Qed.

(** Whatever a returning call of [step] leaves in the execute register: if
    it is a branch, it has both its prediction and its outcome.  The
    resolution never compares an unset prediction. *)
Theorem execute_branch_is_predicted_and_resolved s s' idx a :
  reachable s →
  step s = (Val tt, s') →
  pipeline_regs s' !! 2 = Some (Some (idx, a)) →
  is_branch (objs s' a) = true →
  is_Some (predicted_taken (objs s' a))
  ∧ is_Some (actual_taken (objs s' a)).
Proof.
  intros Hs Hstep H2 Hbr.
  destruct (step_decompose s s' Hs Hstep)
    as (r0 & r1 & r2 & r3 & r4 & rest & ev & s1 & x0 & x1 & x2 & rest'
        & ev' & s2 & Hregs & Hfr & Hregs1 & Hx2 & Hres & _ & _ & ->).
  simpl in H2, Hbr |- *.
  destruct (resolve_block_spec s1 ev _ _ _ _ Hregs1)
    as (ev'' & s2' & Hres' & _ & _ & _ & _ & _ & _ & _ & Hcase).
  rewrite Hres in Hres'. simplify_eq.
  assert (x2 = Some (idx, a)) as ->.
  { destruct Hcase as [(_ & _ & Hr' & _)|(_ & _ & Hr' & _)];
      rewrite Hr' in H2; [|rewrite Hregs1 in H2]; by simplify_eq/=. }
  destruct (resolve_block_objs s1 ev ev'' s2' _ _ _ _ Hregs1 Hres a)
    as ((_ & _ & _ & Hb2) & Hp2 & _).
  destruct (step_front_objs s _ _ _ _ _ _ _ _ Hregs Hfr a)
    as ((_ & _ & _ & Hb1) & _ & _).
  assert (is_branch (objs s1 a) = true) as Hbr1 by congruence.
  destruct (resolve_block_sets s1 ev ev'' s2' _ _ _ _ _ Hregs1 Hbr1 Hres)
    as (Hact & _).
  split; [|by rewrite Hact].
  rewrite Hp2.
  destruct Hx2 as [[_ ?]|[_ Hx2]]; [done|]. subst r1.
  pose proof (step_front_predicts _ _ _ _ _ _ _ _ _ Hregs Hfr) as Hp.
  simpl in Hp.
  destruct (is_branch (objs s a)
            && bool_decide (predicted_taken (objs s a) = None)) eqn:E.
  - destruct Hp as (_ & -> & _). done.
  - destruct Hp as (_ & Ho & _). rewrite Ho in *.
    apply andb_false_iff in E as [E|E]; [congruence|].
    apply bool_decide_eq_false in E.
    by destruct (predicted_taken (objs s a)).
Qed.

End Resolution.

(** The fourth cycle of the sample program. *)
Lemma snapshot_shows_occupants_witness :
  let s := (run 3 (main_pipeline false)).2 in
  let s' := (step s).2 in
  ∃ rec,
    timeline s' = timeline s ++ [rec]
    ∧ (∀ j, j < length (stages s') →
            dict_get (stage_key j) rec = Some (status_of s' (slot_at s' j)))
    ∧ grid s'
      = grid s ++ [map (λ j, status_of s' (slot_at s' j))
                     (seq 0 (length (stages s')))].
Proof.
  intros s s'. apply (snapshot_shows_occupants s s').
  - apply (reachable_run 3 (main_pipeline false));
      [constructor|vm_compute; reflexivity].
  - vm_compute; reflexivity.
Defined.

(** The sixth cycle of the sample program: the branch [I3] is in decode, and
    the cycle stalls. *)
Lemma prediction_in_decode_witness :
  let s := (run 5 (main_pipeline false)).2 in
  ∃ rec s',
    step s = (Val tt, s')
    ∧ timeline s' = timeline s ++ [rec]
    ∧ dict_get (pred_key 2) rec
      = Some (if (predict (branch_predictor s) (objs s 2)).1
              then "PRED:T" else "PRED:N")
    ∧ predicted_taken (objs s' 2)
      = Some (predict (branch_predictor s) (objs s 2)).1.
Proof.
  intros s. apply (prediction_in_decode s 2 2).
  - apply (reachable_run 5 (main_pipeline false));
      [constructor|vm_compute; reflexivity].
  - vm_compute. lia.
  - vm_compute; reflexivity.
  - vm_compute; reflexivity.
  - vm_compute; reflexivity.
Defined.

(** The seventh cycle of the sample program, the branch resolved as
    predicted. *)
Lemma correct_prediction_keeps_fetch_witness :
  let s := (run 6 (main_pipeline false)).2 in
  let s1 := (step_front s).2 in
  ∃ rec s',
    step s = (Val tt, s')
    ∧ flushed s' = flushed s
    ∧ timeline s' = timeline s ++ [rec]
    ∧ dict_get (branch_key 2) rec = Some "PRED_CORRECT"
    ∧ pipeline_regs s' = pipeline_regs s1
    ∧ instr_queue s' = instr_queue s1
    ∧ actual_taken (objs s' 2)
      = Some (actual_outcome (branch_predictor s1) (objs s1 2)).1.
Proof.
  intros s s1.
  apply (correct_prediction_keeps_fetch s (5, [])%nat s1 2 2).
  - apply (reachable_run 6 (main_pipeline false));
      [constructor|vm_compute; reflexivity].
  - vm_compute; reflexivity.
  - vm_compute; reflexivity.
  - vm_compute; reflexivity.
  - vm_compute; reflexivity.
Defined.

Lemma execute_branch_is_predicted_and_resolved_witness :
  let s := (run 6 (main_pipeline true)).2 in
  let s' := (step s).2 in
  is_Some (predicted_taken (objs s' 2))
  ∧ is_Some (actual_taken (objs s' 2)).
Proof.
  intros s s'.
  apply (execute_branch_is_predicted_and_resolved s s' 2 2).
  - apply (reachable_run 6 (main_pipeline true));
      [constructor|vm_compute; reflexivity].
  - vm_compute; reflexivity.
  - vm_compute; reflexivity.
  - vm_compute; reflexivity.
Defined.

Section Order.

Context {P : Type} `{BranchPredictor P}.

Implicit Types s : Pipeline P.

Lemma flat_map_replicate_None {B} (f : slot → list B) n :
  f None = [] → flat_map f (replicate n None) = [].
Proof. intros Hf. induction n as [|n IH]; simpl; [done|]. by rewrite Hf, IH. Qed.

(** The registers past the fifth of a reachable engine are empty. *)
Lemma rest_empty {B} (f : slot → list B) s r0 r1 r2 r3 r4 rest :
  reachable s →
  pipeline_regs s = r0 :: r1 :: r2 :: r3 :: r4 :: rest →
  f None = [] → flat_map f rest = [].
Proof.
  intros Hs Hregs Hf. destruct (reachable_inv _ Hs) as [_ Htail _ _].
  assert (∀ j e, rest !! j = Some e → e = None) as Hnone.
  { intros j e Hj. specialize (Htail (5 + j) ltac:(lia)).
    unfold slot_at in Htail. rewrite Hregs in Htail. simpl in Htail.
    by rewrite Hj in Htail. }
  clear Hregs. induction rest as [|e rest IH]; simpl; [done|].
  rewrite (Hnone 0 e eq_refl), Hf. simpl. apply IH.
  intros j e' Hj. by apply (Hnone (S j)).
Qed.

(** What a call takes off the backlog is what it fetches. *)
Lemma fetch_takes_front s s' :
  reachable s → step s = (Val tt, s') →
  (if fetched s is Some (_, a) then [a] else []) ++ instr_queue s'
  = instr_queue s.
Proof.
  intros Hs Hstep.
  pose proof (step_val_long _ _ Hstep) as Hlong.
  destruct (reachable_inv _ Hs) as [Hlen _ _ _].
  destruct (reachable_shape _ Hs ltac:(lia))
    as (r0 & r1 & r2 & r3 & r4 & rest & Hregs & Hn).
  destruct (step_spec s _ _ _ _ _ _ Hregs Hn)
    as (rec & s1 & Hstep' & _ & _ & _ & Hcase).
  assert (s1 = s') as -> by congruence.
  unfold fetched.
  destruct Hcase as [(-> & _ & _ & -> & _)|(-> & _ & -> & _)]; [done|].
  by destruct (instr_queue s).
Qed.

Lemma fetch_addrs_run n : ∀ s0 s,
  reachable s0 → run n s0 = (Val tt, s) →
  fetch_addrs n s0 ++ instr_queue s = instr_queue s0.
Proof.
  induction n as [|n IH]; intros s0 s Hs0 Hrun; simpl in *.
  - unfold ret in Hrun. by simplify_eq.
  - unfold bind in Hrun. destruct (step s0) as [[[]|e] s1] eqn:E; [|done].
    rewrite <- app_assoc, (IH s1); [|by eapply reach_step|done].
    by apply fetch_takes_front.
Qed.

(** Fetching follows the program: after any number of calls, the
    instructions fetched so far, in the order of their fetches and whether
    squashed later or not, followed by the backlog, are the program the
    engine was built with. *)
Theorem fetch_in_program_order (stage_names : list string)
    (store : addr → Instruction) (instructions : list addr) (bp : P)
    (n : nat) (s : Pipeline P) :
  run n (init stage_names store instructions bp) = (Val tt, s) →
  fetch_addrs n (init stage_names store instructions bp) ++ instr_queue s
  = instructions.
Proof.
  intros Hrun.
  by rewrite (fetch_addrs_run n _ s (reach_init _ _ _ _) Hrun).
Qed.

(** What one call leaves in the backlog and the registers was there before
    the call, with its multiplicity. *)
Lemma held_step s s' :
  reachable s → step s = (Val tt, s') → held s' ⊆+ held s.
Proof.
  intros Hs Hstep.
  pose proof (step_val_long _ _ Hstep) as Hlong.
  destruct (reachable_inv _ Hs) as [Hlen _ _ _].
  destruct (reachable_shape _ Hs ltac:(lia))
    as (r0 & r1 & r2 & r3 & r4 & rest & Hregs & Hn).
  destruct (step_spec s _ _ _ _ _ _ Hregs Hn)
    as (rec & s1 & Hstep' & _ & _ & _ & Hcase).
  assert (s1 = s') as -> by congruence.
  unfold held.
  destruct Hcase as [(_ & _ & _ & -> & -> & _)
                    |(_ & _ & -> & _ & [(_ & -> & _)|(_ & -> & _)])];
    rewrite Hregs; unfold refill; simpl.
  - solve_submseteq.
  - destruct (instr_queue s); simpl; solve_submseteq.
  - destruct (instr_queue s); simpl; solve_submseteq.
Qed.

Lemma held_run n : ∀ s0 s,
  reachable s0 → run n s0 = (Val tt, s) → held s ⊆+ held s0.
Proof.
  induction n as [|n IH]; intros s0 s Hs0 Hrun; simpl in *.
  - unfold ret in Hrun. by simplify_eq.
  - unfold bind in Hrun. destruct (step s0) as [[[]|e] s1] eqn:E; [|done].
    etrans; [apply (IH s1); [by eapply reach_step|done]|].
    by apply held_step.
Qed.

(** The engine invents no instruction and duplicates none: at any point of
    a run, the backlog together with the occupants of the registers is
    contained in the program the engine was built with, counting
    multiplicity; so a program without a repeated object is never held
    twice. *)
Theorem held_within_program (stage_names : list string)
    (store : addr → Instruction) (instructions : list addr) (bp : P)
    (n : nat) (s : Pipeline P) :
  run n (init stage_names store instructions bp) = (Val tt, s) →
  held s ⊆+ instructions
  ∧ (NoDup instructions → NoDup (held s)).
Proof.
  intros Hrun.
  assert (held s ⊆+ instructions) as Hsub.
  { pose proof (held_run n _ s (reach_init _ _ _ _) Hrun) as Hh.
    unfold held at 2 in Hh. simpl in Hh.
    by rewrite flat_map_replicate_None, app_nil_r in Hh. }
  split; [done|]. intros Hnd.
  apply submseteq_Permutation in Hsub as [k Hk]. rewrite Hk in Hnd.
  by apply NoDup_app in Hnd as [? _].
Qed.

Ltac open_sorted :=
  repeat match goal with
  | H : StronglySorted _ (_ :: _) |- _ =>
      apply StronglySorted_cons in H as [? ?]
  | H : Forall _ (_ :: _) |- _ => apply Forall_cons in H as [? ?]
  end.

Ltac close_sorted :=
  repeat first
    [ apply SSorted_nil
    | apply SSorted_cons
    | apply List.Forall_nil
    | apply List.Forall_cons
    | lia ].

Lemma in_order_step s s' :
  reachable s → step s = (Val tt, s') → in_order s → in_order s'.
Proof.
  intros Hs Hstep [Hsorted Hlt].
  assert (reachable s') as Hs' by (by eapply reach_step).
  pose proof (step_val_long _ _ Hstep) as Hlong.
  destruct (reachable_inv _ Hs) as [Hlen _ _ _].
  destruct (reachable_shape _ Hs ltac:(lia))
    as (r0 & r1 & r2 & r3 & r4 & rest & Hregs & Hn).
  destruct (step_spec s _ _ _ _ _ _ Hregs Hn)
    as (rec & s1 & Hstep' & _ & _ & Htl & Hcase).
  assert (s1 = s') as -> by congruence.
  pose proof (rest_empty slot_idx s _ _ _ _ _ _ Hs Hregs eq_refl) as Hrest.
  assert (∃ x0 x1 x2 x3 x4,
    pipeline_regs s' = x0 :: x1 :: x2 :: x3 :: x4 :: rest)
    as (x0 & x1 & x2 & x3 & x4 & Hregs').
  { destruct Hcase as [(_ & _ & _ & _ & -> & _)
                      |(_ & _ & _ & _ & [(_ & -> & _)|(_ & -> & _)])];
      eauto 10. }
  unfold in_order, in_flight in *. rewrite Htl, length_app.
  rewrite Hregs in Hsorted, Hlt.
  destruct Hcase as [(_ & _ & _ & _ & -> & _)
                    |(_ & _ & _ & _ & [(_ & -> & _)|(_ & -> & _)])];
    unfold refill; simpl in *; rewrite Hrest in *.
  - destruct r0 as [[]|], r1 as [[]|], r2 as [[]|], r3 as [[]|],
      r4 as [[]|]; simpl in *; open_sorted; split; close_sorted.
  - destruct r0 as [[]|], r1 as [[]|], r2 as [[]|], r3 as [[]|],
      r4 as [[]|]; simpl in *; open_sorted; split; close_sorted.
  - destruct (instr_queue s), r0 as [[]|], r1 as [[]|], r2 as [[]|],
      r3 as [[]|], r4 as [[]|]; simpl in *; open_sorted; split; close_sorted.
Qed.

(** The pipeline is in order: in every state of a run, the index of every
    occupant of a register is smaller than the number of cycles run, and an
    instruction in an earlier stage has a larger program-order index than
    any instruction in a later stage, so no two occupants share an index. *)
Theorem registers_in_program_order s i xi ai :
  reachable s →
  pipeline_regs s !! i = Some (Some (xi, ai)) →
  xi < cycle s
  ∧ ∀ j xj aj, i < j →
      pipeline_regs s !! j = Some (Some (xj, aj)) → xj < xi.
Proof.
  intros Hs Hi.
  assert (in_order s) as [Hsorted Hlt].
  { clear Hi.
    induction Hs as [stage_names store instructions bp|s s' Hs IH Hstep].
    - unfold in_order, in_flight. simpl.
      rewrite flat_map_replicate_None by done. split; constructor.
    - by eapply in_order_step. }
  destruct (reachable_inv _ Hs) as [_ _ _ Hcyc]. rewrite <- Hcyc.
  unfold in_flight in *.
  assert (∀ (l : list slot) k x a, l !! k = Some (Some (x, a)) →
            x ∈ flat_map slot_idx l) as Hin.
  { intros l k x a Hk. apply list_elem_of_In, in_flat_map.
    exists (Some (x, a)). split; [|left; done].
    apply list_elem_of_In, list_elem_of_lookup. eauto. }
  split; [eapply Forall_forall in Hlt; [done|by eapply Hin]|].
  intros j xj aj Hij Hj.
  revert Hsorted. generalize (pipeline_regs s) i j Hij Hi Hj. clear -Hin.
  induction l as [|e l IH]; intros i j Hij Hi Hj Hsorted; [done|].
  destruct j as [|j]; [lia|]. simpl in Hj, Hsorted.
  apply StronglySorted_app in Hsorted as (Hcross & _ & Hsl).
  destruct i as [|i]; simpl in Hi.
  - simplify_eq. apply (Hcross xi xj); [left|by eapply Hin].
  - apply (IH i j); [lia|done|done|done].
Qed.

End Order.

(** After eight cycles of the sample program. *)
Lemma fetch_in_program_order_witness :
  let s0 := main_pipeline false in
  fetch_addrs 8 s0 ++ instr_queue (run 8 s0).2 = [0; 1; 2; 3; 4].
Proof.
  intros s0.
  apply (fetch_in_program_order main_stages (store_of sample_program)
           [0; 1; 2; 3; 4] (static_not_taken (λ _, false)) 8 (run 8 s0).2).
  vm_compute; reflexivity.
Defined.

Lemma held_within_program_witness :
  let s := (run 8 (main_pipeline true)).2 in
  held s ⊆+ [0; 1; 2; 3; 4]
  ∧ (NoDup [0; 1; 2; 3; 4] → NoDup (held s)).
Proof.
  intros s.
  apply (held_within_program main_stages (store_of sample_program)
           [0; 1; 2; 3; 4] (static_not_taken (λ _, true)) 8 s).
  vm_compute; reflexivity.
Defined.

(** The first cycle of the sample program: [I1], alone in the registers,
    has the index 0. *)
Lemma registers_in_program_order_witness :
  let s := (run 1 (main_pipeline false)).2 in
  0 < cycle s
  ∧ ∀ j xj aj, 0 < j →
      pipeline_regs s !! j = Some (Some (xj, aj)) → xj < 0.
Proof.
  intros s.
  apply (registers_in_program_order s 0 0 0).
  - apply (reachable_run 1 (main_pipeline false));
      [constructor|vm_compute; reflexivity].
  - vm_compute; reflexivity.
Defined.

Section Run_all.

Context {P : Type} `{BranchPredictor P}.

Implicit Types s : Pipeline P.

Lemma is_done_queue s : is_done s = true → instr_queue s = [].
Proof.
  unfold is_done. destruct (existsb _ _); [done|]. by destruct (instr_queue s).
Qed.

Lemma remaining_done s : is_done s = true → remaining s = 0.
Proof.
  intros Hdone. unfold remaining. rewrite (is_done_queue s Hdone).
  unfold is_done in Hdone.
  destruct (pipeline_regs s) as [|r0 [|r1 [|r2 [|r3 [|r4 rest]]]]]; try done.
  simpl in *. by destruct r0, r1, r2, r3, r4.
Qed.

Lemma step_stages s s' :
  reachable s → step s = (Val tt, s') → stages s' = stages s.
Proof.
  intros Hs Hstep.
  pose proof (step_val_long _ _ Hstep) as Hlong.
  destruct (reachable_inv _ Hs) as [Hlen _ _ _].
  destruct (reachable_shape _ Hs ltac:(lia))
    as (r0 & r1 & r2 & r3 & r4 & rest & Hregs & Hn).
  destruct (step_spec s _ _ _ _ _ _ Hregs Hn)
    as (rec & s1 & Hstep' & Hst & _). congruence.
Qed.

(** [run_all] stops the engine where it should.  With at least five stages
    and enough firings of the timer, the loop calls [step] until the engine
    is done and then stops: it makes [n] calls, where [n] is the first
    number of calls after which [is_done] holds (none when the engine is
    done already), and [n] is at most the work left plus the stalls met on
    the way. *)
Theorem run_all_stops_when_done fuel : ∀ s,
  reachable s → 5 ≤ length (stages s) →
  2 * remaining s + (if occupied (slot_at s 2) then 1 else 0) ≤ fuel →
  ∃ n s',
    run_all fuel s = (Val tt, s')
    ∧ run n s = (Val tt, s')
    ∧ is_done s' = true
    ∧ n + stalls s ≤ remaining s + stalls s'
    ∧ ∀ m sm, m < n → run m s = (Val tt, sm) → is_done sm = false.
Proof.
  induction fuel as [|fuel IH]; intros s Hs Hlong Hfuel.
  - exists 0, s. repeat split; try done; [|lia|lia].
    destruct (reachable_shape _ Hs Hlong)
      as (r0 & r1 & r2 & r3 & r4 & rest & Hregs & Hn).
    eapply is_done_remaining; [done| |lia].
    by destruct (reachable_inv _ Hs).
  - cbn [run_all]. unfold bind at 1, gets at 1.
    destruct (is_done s) eqn:Hdone; cbn [negb].
    { exists 0, s. repeat split; try done; lia. }
    assert (0 < remaining s) as Hrem.
    { destruct (decide (remaining s = 0)) as [Hz|]; [|lia].
      destruct (reachable_shape _ Hs Hlong)
        as (r0 & r1 & r2 & r3 & r4 & rest & Hregs & Hn).
      rewrite (is_done_remaining s _ _ _ _ _ _ Hregs) in Hdone; try done.
      by destruct (reachable_inv _ Hs). }
    destruct (step_progress s Hs Hlong Hrem) as (s1 & Hstep & Hcase).
    assert (reachable s1) as Hs1 by (by eapply reach_step).
    pose proof (step_stages s s1 Hs Hstep) as Hst1.
    destruct (IH s1) as (n & s' & Hall & Hrun & Hd & Hbound & Hfirst);
      [done|by rewrite Hst1| |].
    { destruct Hcase as [(_ & -> & Ho & ->)|(_ & Hlt)].
      - rewrite Ho in Hfuel. lia.
      - destruct (occupied (slot_at s1 2)), (occupied (slot_at s 2)); lia. }
    exists (S n), s'. unfold bind. rewrite Hstep. split; [done|].
    split; [simpl; unfold bind; by rewrite Hstep|]. split; [done|]. split.
    { destruct Hcase as [(Hstl & Hr & _)|(Hstl & Hlt)]; lia. }
    intros m sm Hm Hrm. destruct m as [|m]; simpl in Hrm.
    + unfold ret in Hrm. by simplify_eq.
    + unfold bind in Hrm. rewrite Hstep in Hrm. apply (Hfirst m); [lia|done].
Qed.

End Run_all.

(** [run_all] on the engine of [main]: twelve calls. *)
Lemma run_all_stops_when_done_witness :
  let s := main_pipeline false in
  ∃ n s',
    run_all 40 s = (Val tt, s')
    ∧ run n s = (Val tt, s')
    ∧ is_done s' = true
    ∧ n + stalls s ≤ remaining s + stalls s'
    ∧ ∀ m sm, m < n → run m s = (Val tt, sm) → is_done sm = false.
Proof.
  intros s. apply (run_all_stops_when_done 40 s).
  - constructor.
  - vm_compute. lia.
  - vm_compute. lia.
Defined.
